(** * Byte-level BPE tokenizer (LSTM-NLP-Predictions)

    A shallow embedding of [ByteTokenizer.py] and [BpeTokenier.py]:
    the byte vocabulary, pair counting, the in-place pair rewrite [merge],
    BPE training and BPE encoding, together with the Python runtime pieces
    they rely on (exceptions, insertion-ordered dictionaries, [max] with a
    key function, the UTF-8 codec). *)

From stdpp Require Import gmap list.
From Stdlib Require Import ZArith Lia.

Local Open Scope Z_scope.

(** ** Python runtime *)

Module Py.

(** The exceptions that the modelled code can raise. *)
Inductive exn : Type :=
| IndexError
| ValueError
| KeyError
| UnicodeEncodeError.

(** How a call ends.  [Exhausted] is not a Python outcome: it marks that the
  iteration budget of a modelled [while] loop ran out.  Every budget used
  below is shown to be large enough, so [Exhausted] never shows up. *)
Inductive outcome (A : Type) : Type :=
| Return (a : A)
| Raise (e : exn)
| Exhausted.
Arguments Return {A} a.
Arguments Raise {A} e.
Arguments Exhausted {A}.

Definition bind {A B : Type} (m : outcome A) (k : A → outcome B) : outcome B :=
match m with
| Return a => k a
| Raise e => Raise e
| Exhausted => Exhausted
end.

(** [for]/[while] control after one evaluation of a loop body. *)
Inductive control : Type := Continue | Break.

(** *** Insertion-ordered dictionaries

  A [dict] iterates over its keys in insertion order, which is what
  decides ties in [max(cnt, key=cnt.get)]; it is modelled by an
  association list without duplicate keys. *)
Section dict.
Context {K V : Type} `{EqDecision K}.

Fixpoint dict_get (k : K) (d : list (K * V)) : option V :=
  match d with
  | [] => None
  | (k', v) :: d' => if bool_decide (k' = k) then Some v else dict_get k d'
  end.

(** [d[k] = v]: an existing key keeps its position, a new key goes last. *)
Fixpoint dict_set (k : K) (v : V) (d : list (K * V)) : list (K * V) :=
  match d with
  | [] => [(k, v)]
  | (k', v') :: d' =>
      if bool_decide (k' = k) then (k, v) :: d' else (k', v') :: dict_set k v d'
  end.
End dict.

(** [max(cnt, key=cnt.get)]: the first key, in iteration order, whose value
  is not exceeded by any other; [ValueError] on an empty dictionary. *)
Fixpoint max_from {K : Type} (best : K * Z) (d : list (K * Z)) : K * Z :=
match d with
| [] => best
| kv :: d' => max_from (if bool_decide (best.2 < kv.2) then kv else best) d'
end.

Definition max_key {K : Type} (cnt : list (K * Z)) : outcome K :=
match cnt with
| [] => Raise ValueError
| kv :: d => Return (max_from kv d).1
end.

(** [m[k]] on a dictionary modelled as a finite map. *)
Definition subscript {K V : Type} `{Countable K} (m : gmap K V) (k : K) : outcome V :=
match m !! k with
| Some v => Return v
| None => Raise KeyError
end.

(** *** Strings and the UTF-8 codec

  A [str] is its sequence of code points and a [bytes] object its sequence
  of byte values.  [str.encode('utf-8')] raises [UnicodeEncodeError] on a
  surrogate code point; a [str] holds no code point outside
  [0 .. 0x10FFFF], and the model raises there as well. *)
Definition is_scalar (c : Z) : bool :=
bool_decide (0 ≤ c < 0xD800 ∨ 0xE000 ≤ c ≤ 0x10FFFF).

Definition encode_point (c : Z) : outcome (list Z) :=
if negb (is_scalar c) then Raise UnicodeEncodeError
else if bool_decide (c < 0x80) then Return [c]
else if bool_decide (c < 0x800) then
  Return [0xC0 + c / 64; 0x80 + c mod 64]
else if bool_decide (c < 0x10000) then
  Return [0xE0 + c / 4096; 0x80 + (c / 64) mod 64; 0x80 + c mod 64]
else
  Return [0xF0 + c / 262144; 0x80 + (c / 4096) mod 64;
          0x80 + (c / 64) mod 64; 0x80 + c mod 64].

Fixpoint utf8_encode (text : list Z) : outcome (list Z) :=
match text with
| [] => Return []
| c :: text' =>
    bind (encode_point c) (λ bs,
    bind (utf8_encode text') (λ rest, Return (bs ++ rest)))
end.

Definition is_cont (b : Z) : bool := bool_decide (0x80 ≤ b ≤ 0xBF).

(** Second byte of a three-byte form: [E0] excludes overlong forms, [ED]
  excludes surrogates. *)
Definition second_of_3 (b1 b2 : Z) : bool :=
if bool_decide (b1 = 0xE0) then bool_decide (0xA0 ≤ b2 ≤ 0xBF)
else if bool_decide (b1 = 0xED) then bool_decide (0x80 ≤ b2 ≤ 0x9F)
else is_cont b2.

(** Second byte of a four-byte form: [F0] excludes overlong forms, [F4]
  stays below [0x110000]. *)
Definition second_of_4 (b1 b2 : Z) : bool :=
if bool_decide (b1 = 0xF0) then bool_decide (0x90 ≤ b2 ≤ 0xBF)
else if bool_decide (b1 = 0xF4) then bool_decide (0x80 ≤ b2 ≤ 0x8F)
else is_cont b2.

(** [bytes.decode('utf-8', errors='replace')]: every maximal ill-formed
  run is replaced by U+FFFD and decoding resumes after it. *)
Fixpoint utf8_decode (bs : list Z) : list Z :=
match bs with
| [] => []
| b1 :: r1 =>
    if bool_decide (b1 < 0x80) then b1 :: utf8_decode r1
    else if bool_decide (0xC2 ≤ b1 ≤ 0xDF) then
      match r1 with
      | [] => [0xFFFD]
      | b2 :: r2 =>
          if is_cont b2
          then ((b1 - 0xC0) * 64 + (b2 - 0x80)) :: utf8_decode r2
          else 0xFFFD :: utf8_decode r1
      end
    else if bool_decide (0xE0 ≤ b1 ≤ 0xEF) then
      match r1 with
      | [] => [0xFFFD]
      | b2 :: r2 =>
          if second_of_3 b1 b2 then
            match r2 with
            | [] => [0xFFFD]
            | b3 :: r3 =>
                if is_cont b3
                then ((b1 - 0xE0) * 4096 + (b2 - 0x80) * 64 + (b3 - 0x80))
                       :: utf8_decode r3
                else 0xFFFD :: utf8_decode r2
            end
          else 0xFFFD :: utf8_decode r1
      end
    else if bool_decide (0xF0 ≤ b1 ≤ 0xF4) then
      match r1 with
      | [] => [0xFFFD]
      | b2 :: r2 =>
          if second_of_4 b1 b2 then
            match r2 with
            | [] => [0xFFFD]
            | b3 :: r3 =>
                if is_cont b3 then
                  match r3 with
                  | [] => [0xFFFD]
                  | b4 :: r4 =>
                      if is_cont b4
                      then ((b1 - 0xF0) * 262144 + (b2 - 0x80) * 4096
                            + (b3 - 0x80) * 64 + (b4 - 0x80)) :: utf8_decode r4
                      else 0xFFFD :: utf8_decode r3
                  end
                else 0xFFFD :: utf8_decode r2
            end
          else 0xFFFD :: utf8_decode r1
      end
    else 0xFFFD :: utf8_decode r1
end.

End Py.
Export Py.

(** ** [ByteTokenizer.py], module-level functions *)

(** [count_pairs(data)].  The indices [j] and [j+1] range over
    [range(len(i)-1)], so both subscripts are in range; [len(i)-1] is the
    truncated difference because [range] of a negative number is empty. *)
Definition count_incr (Dict : list (Z * Z * Z)) (k : Z * Z) : list (Z * Z * Z) :=
  match dict_get k Dict with
  | Some c => dict_set k (c + 1) Dict
  | None => dict_set k 1 Dict
  end.

Definition count_seq (Dict : list (Z * Z * Z)) (i : list Z) : list (Z * Z * Z) :=
  foldl (λ D j, count_incr D (i !!! j, i !!! S j)) Dict (seq 0 (length i - 1)%nat).

Definition count_pairs (data : list (list Z)) : list (Z * Z * Z) :=
  foldl count_seq [] data.

(** [merge(numbers, pair, idx)]: the [while] loop on the contents of the list
    object [numbers].  The result is the contents of that object when the
    call ends, and how it ends; on [Return] the value handed back is the
    object [numbers] itself.  [numbers[i]] and [numbers[i+1]] raise
    [IndexError] when out of range ([i] is never negative). *)
Fixpoint merge_loop (fuel : nat) (i : nat) (numbers : list Z)
    (pair : Z * Z) (idx : Z) {struct fuel} : list Z * outcome unit :=
  if bool_decide (Z.of_nat i ≠ Z.of_nat (length numbers) - 1) then
    match fuel with
    | O => (numbers, Exhausted)
    | S fuel' =>
        match numbers !! i with
        | None => (numbers, Raise IndexError)
        | Some a =>
            match numbers !! S i with
            | None => (numbers, Raise IndexError)
            | Some b =>
                if bool_decide ((a, b) = pair)
                then merge_loop fuel' (S i) (delete (S i) (<[i:=idx]> numbers)) pair idx
                else merge_loop fuel' (S i) numbers pair idx
            end
        end
    end
  else (numbers, Return ()).

Definition merge (numbers : list Z) (pair : Z * Z) (idx : Z) : list Z * outcome unit :=
  merge_loop (S (length numbers)) 0 numbers pair idx.

(** *** [merge] on list objects

    Lists are mutable objects; a heap maps references to their contents.
    [merge] writes through the reference it is given and returns that same
    reference. *)
Module Heap.
Definition ref := positive.

Definition merge (h : gmap ref (list Z)) (numbers : ref) (pair : Z * Z) (idx : Z)
    : gmap ref (list Z) * outcome ref :=
  let '(contents, r) := merge (h !!! numbers) pair idx in
  (<[numbers := contents]> h, bind r (λ _, Return numbers)).
End Heap.

(** The rewrite as the specification words it: scan left to right and
    replace the non-overlapping occurrences of [pair] by [idx]. *)
Fixpoint replace_pairs (numbers : list Z) (pair : Z * Z) (idx : Z) : list Z :=
  match numbers with
  | a :: (b :: t) as rest =>
      if bool_decide ((a, b) = pair)
      then idx :: replace_pairs t pair idx
      else a :: replace_pairs rest pair idx
  | _ => numbers
  end.

(** Start positions, in [numbers], of the occurrences that this scan
    replaces, from left to right; [i] is the position of the head. *)
Fixpoint replaced_from (i : nat) (numbers : list Z) (pair : Z * Z) : list nat :=
  match numbers with
  | a :: (b :: t) as rest =>
      if bool_decide ((a, b) = pair)
      then i :: replaced_from (S (S i)) t pair
      else replaced_from (S i) rest pair
  | _ => []
  end.

Definition replaced (numbers : list Z) (pair : Z * Z) : list nat :=
  replaced_from 0 numbers pair.

(** The rightmost replaced occurrence ends at the last index of the list. *)
Definition ends_replaced (numbers : list Z) (pair : Z * Z) : bool :=
  match last (replaced numbers pair) with
  | Some p => bool_decide (S p = (length numbers - 1)%nat)
  | None => false
  end.

(** How the scan of [merge] ends on the part of the list still ahead of
    the index. *)
Fixpoint scan_end (suffix : list Z) (pair : Z * Z) : outcome unit :=
  match suffix with
  | [] => Raise IndexError
  | [_] => Return ()
  | a :: (b :: t) as rest =>
      if bool_decide ((a, b) = pair) then scan_end t pair else scan_end rest pair
  end.

(** ** The tokenizer object *)

(** The instance attributes that change: [vocab], [merges] and the three
    special-token ids ([None] until [init_vocab] sets them). *)
Record tokenizer : Type := Tokenizer {
  vocab : gmap Z (list Z);
  merges : gmap (Z * Z) Z;
  pad_token_id : option Z;
  bos_token_id : option Z;
  eos_token_id : option Z
}.

(** [b'<pad>'], [b'<bos>'], [b'<eos>'] *)
Definition pad_token : list Z := [60; 112; 97; 100; 62].
Definition bos_token : list Z := [60; 98; 111; 115; 62].
Definition eos_token : list Z := [60; 101; 111; 115; 62].
Definition special_tokens : list (list Z) := [pad_token; bos_token; eos_token].

(** ** class [ByteTokenizer] *)

Module ByteTokenizer.

(** [for token in self.special_tokens: self.vocab[len(self.vocab)] = token] *)
Definition add_special (vocab : gmap Z (list Z)) (token : list Z) : gmap Z (list Z) :=
  <[Z.of_nat (size vocab) := token]> vocab.

(** [{y: x for x, y in self.vocab.items()}].  The values of the vocabulary
    built by [init_vocab] are pairwise distinct, so the order in which the
    items are visited does not show in the result. *)
Definition token_to_id (vocab : gmap Z (list Z)) : gmap (list Z) Z :=
  list_to_map (prod_swap <$> map_to_list vocab).

(** The attributes are assigned one after the other; a failing subscript
    leaves the earlier assignments in place. *)
Definition init_vocab (self : tokenizer) : tokenizer * outcome unit :=
  let vocab0 : gmap Z (list Z) := list_to_map ((λ idx, (idx, [idx])) <$> seqZ 0 256) in
  let vocab1 := foldl add_special vocab0 special_tokens in
  let self1 := Tokenizer vocab1 (merges self)
                 (pad_token_id self) (bos_token_id self) (eos_token_id self) in
  match subscript (token_to_id vocab1) pad_token with
  | Return pad =>
      let self2 := Tokenizer vocab1 (merges self)
                     (Some pad) (bos_token_id self) (eos_token_id self) in
      match subscript (token_to_id vocab1) bos_token with
      | Return bos =>
          let self3 := Tokenizer vocab1 (merges self)
                         (Some pad) (Some bos) (eos_token_id self) in
          match subscript (token_to_id vocab1) eos_token with
          | Return eos =>
              (Tokenizer vocab1 (merges self) (Some pad) (Some bos) (Some eos),
               Return ())
          | r => (self3, bind r (λ _, Return ()))
          end
      | r => (self2, bind r (λ _, Return ()))
      end
  | r => (self1, bind r (λ _, Return ()))
  end.

(** [__init__] *)
Definition new : tokenizer * outcome unit :=
  init_vocab (Tokenizer ∅ ∅ None None None).

Definition train (self : tokenizer) (texts : list (list Z)) (max_vocab : Z)
    : tokenizer * outcome unit :=
  init_vocab self.

Definition encode (self : tokenizer) (text : list Z) : outcome (list Z) :=
  utf8_encode text.

(** [b''.join(self.vocab[idx] for idx in ids)] *)
Fixpoint join_vocab (vocab : gmap Z (list Z)) (ids : list Z) : outcome (list Z) :=
  match ids with
  | [] => Return []
  | idx :: ids' =>
      bind (subscript vocab idx) (λ token,
      bind (join_vocab vocab ids') (λ rest, Return (token ++ rest)))
  end.

Definition decode (self : tokenizer) (ids : list Z) : outcome (list Z) :=
  bind (join_vocab (vocab self) ids) (λ bs, Return (utf8_decode bs)).

Definition get_vocab_size (self : tokenizer) : Z :=
  Z.of_nat (size (vocab self)).

End ByteTokenizer.

(** ** class [BpeTokenizer] *)

Module BpeTokenizer.

(** [super().init_vocab(); self.merges = {}] *)
Definition init_vocab (self : tokenizer) : tokenizer * outcome unit :=
  match ByteTokenizer.init_vocab self with
  | (self', Return _) =>
      (Tokenizer (vocab self') ∅
         (pad_token_id self') (bos_token_id self') (eos_token_id self'),
       Return ())
  | r => r
  end.

(** [__init__]: [self.merges = {}], then the parent's constructor, whose
    call of [init_vocab] reaches the override above. *)
Definition new : tokenizer * outcome unit :=
  init_vocab (Tokenizer ∅ ∅ None None None).

(** [[list(text.encode('utf-8')) for text in texts]] *)
Fixpoint encode_texts (texts : list (list Z)) : outcome (list (list Z)) :=
  match texts with
  | [] => Return []
  | text :: texts' =>
      bind (utf8_encode text) (λ ids,
      bind (encode_texts texts') (λ rest, Return (ids :: rest)))
  end.

(** [for i, ids in enumerate(list_of_ids): list_of_ids[i] = merge(ids, pair, new_idx)].
    Each [ids] is the object stored at [list_of_ids[i]], so what [merge] has
    written stays in place when it raises. *)
Fixpoint merge_each (list_of_ids : list (list Z)) (pair : Z * Z) (new_idx : Z)
    : list (list Z) * outcome unit :=
  match list_of_ids with
  | [] => ([], Return ())
  | ids :: rest =>
      match merge ids pair new_idx with
      | (ids', Return _) =>
          let '(rest', r) := merge_each rest pair new_idx in (ids' :: rest', r)
      | (ids', r) => (ids' :: rest, r)
      end
  end.

(** What the training loop works on: the tokenizer and the local
    [list_of_ids]. *)
Record train_state : Type := TrainState {
  self : tokenizer;
  list_of_ids : list (list Z)
}.

(** One evaluation of the body of [for _ in progress_bar]. *)
Definition train_body (st : train_state) : train_state * outcome control :=
  let cnt := count_pairs (list_of_ids st) in
  match max_key cnt with
  | Return best =>
      let pair := best in
      match dict_get pair cnt with
      | Some freq =>
          if bool_decide (freq = 1) then (st, Return Break)
          else
            let tk := self st in
            let new_idx := Z.of_nat (size (vocab tk)) in
            let merges' := <[pair := new_idx]> (merges tk) in
            let recorded v :=
              Tokenizer v merges' (pad_token_id tk) (bos_token_id tk) (eos_token_id tk) in
            match subscript (vocab tk) pair.1 with
            | Return token1 =>
                match subscript (vocab tk) pair.2 with
                | Return token2 =>
                    let vocab' := <[new_idx := token1 ++ token2]> (vocab tk) in
                    let '(ids', r) := merge_each (list_of_ids st) pair new_idx in
                    (TrainState (recorded vocab') ids', bind r (λ _, Return Continue))
                | r => (TrainState (recorded (vocab tk)) (list_of_ids st),
                        bind r (λ _, Return Continue))
                end
            | r => (TrainState (recorded (vocab tk)) (list_of_ids st),
                    bind r (λ _, Return Continue))
            end
      | None => (st, Raise KeyError)
      end
  | r => (st, bind r (λ _, Return Continue))
  end.

(** [for _ in progress_bar], with [n] values left in the range. *)
Fixpoint train_loop (n : nat) (st : train_state) : train_state * outcome unit :=
  match n with
  | O => (st, Return ())
  | S n' =>
      match train_body st with
      | (st', Return Continue) => train_loop n' st'
      | (st', r) => (st', bind r (λ _, Return ()))
      end
  end.

(** How many times the loop body is entered. *)
Fixpoint train_iterations (n : nat) (st : train_state) : nat :=
  match n with
  | O => O
  | S n' =>
      match train_body st with
      | (st', Return Continue) => S (train_iterations n' st')
      | _ => 1%nat
      end
  end.

(** [train(texts, max_vocab)].  Printing and the progress bar's
    description are output only and are left out. *)
Definition train (self : tokenizer) (texts : list (list Z)) (max_vocab : Z)
    : tokenizer * outcome unit :=
  match init_vocab self with
  | (self0, Return _) =>
      if bool_decide (max_vocab ≤ Z.of_nat (size (vocab self0))) then (self0, Return ())
      else
        let n := Z.to_nat (max_vocab - Z.of_nat (size (vocab self0))) in
        match encode_texts texts with
        | Return ids =>
            let '(st, r) := train_loop n (TrainState self0 ids) in
            (BpeTokenizer.self st, r)
        | r => (self0, bind r (λ _, Return ()))
        end
  | r => r
  end.

(** How many times a call of [train] enters the body of its loop. *)
Definition train_count (self : tokenizer) (texts : list (list Z)) (max_vocab : Z) : nat :=
  match init_vocab self with
  | (self0, Return _) =>
      if bool_decide (max_vocab ≤ Z.of_nat (size (vocab self0))) then O
      else
        let n := Z.to_nat (max_vocab - Z.of_nat (size (vocab self0))) in
        match encode_texts texts with
        | Return ids => train_iterations n (TrainState self0 ids)
        | _ => O
        end
  | _ => O
  end.

(** One test of [while len(ids) > 1] followed, when it holds, by the body. *)
Definition encode_body (self : tokenizer) (ids : list Z) : outcome (control * list Z) :=
  if bool_decide (1 < length ids)%nat then
    let cnt := count_pairs [ids] in
    bind (max_key cnt) (λ pair,
      match merges self !! pair with
      | None => Return (Break, ids)
      | Some idx =>
          match merge ids pair idx with
          | (ids', r) => bind r (λ _, Return (Continue, ids'))
          end
      end)
  else Return (Break, ids).

Fixpoint encode_loop (fuel : nat) (self : tokenizer) (ids : list Z) : outcome (list Z) :=
  bind (encode_body self ids) (λ step,
    match step with
    | (Break, ids') => Return ids'
    | (Continue, ids') =>
        match fuel with
        | O => Exhausted
        | S fuel' => encode_loop fuel' self ids'
        end
    end).

Definition encode (self : tokenizer) (text : list Z) : outcome (list Z) :=
  bind (utf8_encode text) (λ ids, encode_loop (length ids) self ids).

(** [decode] is inherited. *)
Definition decode := ByteTokenizer.decode.
Definition get_vocab_size := ByteTokenizer.get_vocab_size.

End BpeTokenizer.

(** ** Notions used to state the properties *)

(** The adjacent pairs of a sequence, left to right. *)
Fixpoint adjacent (l : list Z) : list (Z * Z) :=
  match l with
  | a :: (b :: _) as t => (a, b) :: adjacent t
  | _ => []
  end.

(** Frequency of [q] among the adjacent pairs of the sequences of [data]. *)
Definition occurrences (q : Z * Z) (ps : list (Z * Z)) : Z :=
  Z.of_nat (length (filter (λ p, p = q) ps)).

Definition pair_freq (q : Z * Z) (data : list (list Z)) : Z :=
  occurrences q (data ≫= adjacent).

(** The counter of [q] in a dictionary of counts, with 0 for an absent key. *)
Definition counted (q : Z * Z) (Dict : list (Z * Z * Z)) : Z :=
  default 0 (dict_get q Dict).

(** Keys are not repeated and every counter that is present is positive. *)
Definition well_counted (Dict : list (Z * Z * Z)) : Prop :=
  NoDup Dict.*1 ∧ ∀ kv, kv ∈ Dict → 0 < kv.2.

(** The vocabulary after a reset: ids 0–255 are the single bytes, then the
    pad, beginning-of-sequence and end-of-sequence tokens. *)
Definition base_vocab : gmap Z (list Z) :=
  <[258 := eos_token]> (<[257 := bos_token]> (<[256 := pad_token]>
    (list_to_map ((λ idx, (idx, [idx])) <$> seqZ 0 256)))).

Definition base_tokenizer : tokenizer :=
  Tokenizer base_vocab ∅ (Some 256) (Some 257) (Some 258).

(** A valid Unicode string: every code point is a scalar value. *)
Definition valid_str (text : list Z) : Prop := Forall (λ c, is_scalar c = true) text.

(** Byte values. *)
Definition is_bytes (bs : list Z) : Prop := Forall (λ b, 0 ≤ b < 256) bs.

(** The ids of a vocabulary are exactly the numbers below its size. *)
Definition dense (v : gmap Z (list Z)) : Prop :=
  ∀ idx, is_Some (v !! idx) ↔ 0 ≤ idx < Z.of_nat (size v).

(** Merge soundness: the token of a merged id is the concatenation of the
    tokens of its two constituents, and both constituents are older ids. *)
Definition merge_sound (tk : tokenizer) : Prop :=
  ∀ l r new_id, merges tk !! (l, r) = Some new_id →
    l < new_id ∧ r < new_id ∧
    ∃ bl br, vocab tk !! l = Some bl ∧ vocab tk !! r = Some br
             ∧ vocab tk !! new_id = Some (bl ++ br).

(** What training keeps true of the tokenizer at every point. *)
Definition tok_inv (tk : tokenizer) : Prop :=
  dense (vocab tk) ∧ merge_sound tk
  ∧ size (vocab tk) = (259 + size (merges tk))%nat.

(** What training keeps true of the working sequences between two
    iterations: their ids are in the vocabulary, and no pair that was
    merged is still adjacent. *)
Definition seq_inv (tk : tokenizer) (list_of_ids : list (list Z)) : Prop :=
  (∀ ids id, ids ∈ list_of_ids → id ∈ ids → is_Some (vocab tk !! id))
  ∧ (∀ ids q, ids ∈ list_of_ids → q ∈ adjacent ids → merges tk !! q = None).

(** The tokenizer after recording the merge of [pair]. *)
Definition record_merge (tk : tokenizer) (pair : Z * Z) (token : list Z) : tokenizer :=
  Tokenizer (<[Z.of_nat (size (vocab tk)) := token]> (vocab tk))
            (<[pair := Z.of_nat (size (vocab tk))]> (merges tk))
            (pad_token_id tk) (bos_token_id tk) (eos_token_id tk).

(** One iteration of the training loop either leaves the tokenizer as it is
    or records one merge whose two constituents are in the vocabulary at
    that moment. *)
Definition records_at_most_one (tk tk' : tokenizer) : Prop :=
  tk' = tk
  ∨ ∃ pair bl br,
      vocab tk !! pair.1 = Some bl ∧ vocab tk !! pair.2 = Some br
      ∧ merges tk !! pair = None
      ∧ tk' = record_merge tk pair (bl ++ br).

(** ** [MyDataset.py] *)

(** [l[idx]] on a list: a negative index counts from the end, an index out
    of range raises [IndexError]. *)
Definition list_item {A : Type} (l : list A) (idx : Z) : outcome A :=
  let i := if bool_decide (idx < 0) then idx + Z.of_nat (length l) else idx in
  if bool_decide (i < 0) then Raise IndexError
  else match l !! Z.to_nat i with
       | Some x => Return x
       | None => Raise IndexError
       end.

(** [l[:stop]]: [None] keeps the whole list, a negative [stop] counts from
    the end, and a slice never fails. *)
Definition slice_to {A : Type} (l : list A) (stop : option Z) : list A :=
  match stop with
  | None => l
  | Some n =>
      if bool_decide (n < 0) then take (Z.to_nat (Z.of_nat (length l) + n)) l
      else take (Z.to_nat n) l
  end.

(** The class of the tokenizer object decides which [encode] a call
    [tokenizer.encode(text)] reaches. *)
Inductive tokenizer_class : Type := ByteClass | BpeClass.

Definition encode_method (cls : tokenizer_class) (self : tokenizer) (text : list Z)
    : outcome (list Z) :=
  match cls with
  | ByteClass => ByteTokenizer.encode self text
  | BpeClass => BpeTokenizer.encode self text
  end.

Module MyDataset.

(** A row holds the ids that [encode] returns between [tokenizer.bos_token]
    and [tokenizer.eos_token], which are the [bytes] objects, not their ids. *)
Inductive element : Type :=
| Id (idx : Z)
| Bytes (token : list Z).

Record dataset : Type := Dataset {
  max_length : option Z;
  data : list (list element)
}.

(** The loop of [__init__] over [texts], with the rows appended so far. *)
Fixpoint fill (cls : tokenizer_class) (tokenizer : tokenizer)
    (texts : list (list Z)) (data : list (list element)) : outcome (list (list element)) :=
  match texts with
  | [] => Return data
  | text :: texts' =>
      bind (encode_method cls tokenizer text) (λ ids,
        let token_ids := [Bytes bos_token] ++ (Id <$> ids) ++ [Bytes eos_token] in
        fill cls tokenizer texts' (data ++ [token_ids]))
  end.

(** [__init__] *)
Definition new (cls : tokenizer_class) (tokenizer : tokenizer)
    (texts : list (list Z)) (max_length : option Z) : outcome dataset :=
  bind (fill cls tokenizer texts []) (λ data, Return (Dataset max_length data)).

(** [__getitem__] *)
Definition getitem (self : dataset) (idx : Z) : outcome (list element) :=
  bind (list_item (data self) idx) (λ row, Return (slice_to row (max_length self))).

(** [__len__] *)
Definition len (self : dataset) : Z := Z.of_nat (length (data self)).

End MyDataset.

(** ** Further notions used to state properties *)

(** The row that [MyDataset.__init__] builds from the ids of one text. *)
Definition row_of (ids : list Z) : list MyDataset.element :=
  MyDataset.Bytes bos_token :: (MyDataset.Id <$> ids) ++ [MyDataset.Bytes eos_token].

(** The distinct elements of a list, each at the place of its first
    occurrence. *)
Definition see {A : Type} `{EqDecision A} (seen : list A) (x : A) : list A :=
  if bool_decide (x ∈ seen) then seen else seen ++ [x].

Definition distinct {A : Type} `{EqDecision A} (l : list A) : list A :=
  foldl see [] l.

(** The vocabulary extends the base one and the special ids are in place. *)
Definition base_kept (tk : tokenizer) : Prop :=
  base_vocab ⊆ vocab tk
  ∧ pad_token_id tk = Some 256 ∧ bos_token_id tk = Some 257 ∧ eos_token_id tk = Some 258.

(** The ids given to merges are the numbers from 259 up to the size of the
    vocabulary, each given to one pair. *)
Definition merge_ids_dense (tk : tokenizer) : Prop :=
  (∀ n, (∃ pair, merges tk !! pair = Some n) ↔ 259 ≤ n < Z.of_nat (size (vocab tk)))
  ∧ (∀ p q n, merges tk !! p = Some n → merges tk !! q = Some n → p = q).

(** ** Properties of [merge] *)

Section merge_facts.
Implicit Types (numbers prefix suffix : list Z) (pair : Z * Z) (idx : Z).

(** Induction that follows the scan: one or two elements at a time. *)
Lemma scan_ind (P : list Z → Prop) :
  P [] → (∀ a, P [a]) →
  (∀ a b t, P t → P (b :: t) → P (a :: b :: t)) →
  ∀ l, P l.
Proof.
  intros Hnil Hone Hstep l.
  assert (H : P l ∧ ∀ a, P (a :: l)); [|by destruct H].
  induction l as [|b t [IH1 IH2]]; split; auto.
Qed.

Lemma merge_loop_unfold fuel i numbers pair idx :
  merge_loop (S fuel) i numbers pair idx =
  if bool_decide (Z.of_nat i ≠ Z.of_nat (length numbers) - 1) then
    match numbers !! i with
    | None => (numbers, Raise IndexError)
    | Some a =>
        match numbers !! S i with
        | None => (numbers, Raise IndexError)
        | Some b =>
            if bool_decide ((a, b) = pair)
            then merge_loop fuel (S i) (delete (S i) (<[i:=idx]> numbers)) pair idx
            else merge_loop fuel (S i) numbers pair idx
        end
    end
  else (numbers, Return ()).
Proof. reflexivity. Qed.

Lemma merge_loop_scan fuel prefix suffix pair idx :
  (length suffix < fuel)%nat →
  merge_loop fuel (length prefix) (prefix ++ suffix) pair idx
  = (prefix ++ replace_pairs suffix pair idx, scan_end suffix pair).
Proof.
  revert fuel prefix.
  induction suffix as [|a|a b t IHt IHbt] using scan_ind; intros fuel prefix Hfuel;
    (destruct fuel as [|fuel]; [simpl in Hfuel; lia|]); rewrite merge_loop_unfold.
  - rewrite bool_decide_eq_true_2 by (rewrite length_app; simpl; lia).
    rewrite lookup_ge_None_2 by (rewrite length_app; simpl; lia). done.
  - rewrite bool_decide_eq_false_2 by (rewrite length_app; simpl; lia). done.
  - rewrite bool_decide_eq_true_2 by (rewrite length_app; simpl; lia).
    rewrite list_lookup_middle by done.
    assert (Hb : (prefix ++ a :: b :: t) !! S (length prefix) = Some b).
    { rewrite lookup_app_r by lia.
      by replace (S (length prefix) - length prefix)%nat with 1%nat by lia. }
    rewrite Hb. simpl replace_pairs. simpl scan_end.
    case_bool_decide as Hp.
    + assert (Hdel : delete (S (length prefix)) (<[length prefix:=idx]> (prefix ++ a :: b :: t))
                     = (prefix ++ [idx]) ++ t).
      { rewrite insert_app_r_alt by lia. rewrite Nat.sub_diag. simpl.
        rewrite (cons_middle idx prefix), (assoc_L (++)).
        replace (S (length prefix)) with (length (prefix ++ [idx])) by (rewrite length_app; simpl; lia).
        apply delete_middle. }
      rewrite Hdel.
      replace (S (length prefix)) with (length (prefix ++ [idx])) by (rewrite length_app; simpl; lia).
      rewrite IHt by (simpl in Hfuel; lia).
      by rewrite <-(assoc_L (++)).
    + replace (S (length prefix)) with (length (prefix ++ [a])) by (rewrite length_app; simpl; lia).
      replace (prefix ++ a :: b :: t) with ((prefix ++ [a]) ++ b :: t) by (by rewrite <-(assoc_L (++))).
      rewrite IHbt by (simpl in Hfuel |- *; lia).
      by rewrite <-(assoc_L (++)).
Qed.

(** [merge] always leaves the rewritten sequence in the list; it returns
    or raises according to where the scan ends. *)
Lemma merge_scan numbers pair idx :
  merge numbers pair idx = (replace_pairs numbers pair idx, scan_end numbers pair).
Proof. apply (merge_loop_scan (S (length numbers)) [] numbers). lia. Qed.

Lemma replace_pairs_cons2 a b t pair idx :
  replace_pairs (a :: b :: t) pair idx =
  if bool_decide ((a, b) = pair)
  then idx :: replace_pairs t pair idx
  else a :: replace_pairs (b :: t) pair idx.
Proof. reflexivity. Qed.

Lemma replaced_from_cons2 i a b t pair :
  replaced_from i (a :: b :: t) pair =
  if bool_decide ((a, b) = pair)
  then i :: replaced_from (S (S i)) t pair
  else replaced_from (S i) (b :: t) pair.
Proof. reflexivity. Qed.

Lemma scan_end_cons2 a b t pair :
  scan_end (a :: b :: t) pair =
  if bool_decide ((a, b) = pair) then scan_end t pair else scan_end (b :: t) pair.
Proof. reflexivity. Qed.

Lemma scan_end_replaced_from i numbers pair :
  scan_end numbers pair =
    if bool_decide (numbers = []) then Raise IndexError
    else match last (replaced_from i numbers pair) with
         | Some p => if bool_decide (S p = (i + length numbers - 1)%nat)
                     then Raise IndexError else Return ()
         | None => Return ()
         end.
Proof.
  revert i. induction numbers as [|a|a b t IHt IHbt] using scan_ind; intros i; [done..|].
  rewrite bool_decide_eq_false_2 by done.
  rewrite scan_end_cons2, replaced_from_cons2.
  destruct (bool_decide ((a, b) = pair)).
  - rewrite (IHt (S (S i))), last_cons. destruct t as [|c t].
    + rewrite (bool_decide_eq_true_2 ([] = [])) by done. cbn [replaced_from last].
      rewrite bool_decide_eq_true_2 by (cbn [length]; lia). done.
    + rewrite (bool_decide_eq_false_2 (c :: t = [])) by done.
      destruct (last (replaced_from (S (S i)) (c :: t) pair)) as [p|] eqn:Hlast.
      * cbn [length]. repeat case_bool_decide; try done; lia.
      * rewrite bool_decide_eq_false_2 by (cbn [length]; lia). done.
  - rewrite (IHbt (S i)). rewrite bool_decide_eq_false_2 by done.
    destruct (last _) as [p|]; [|done].
    cbn [length]. repeat case_bool_decide; try done; lia.
Qed.

Lemma scan_end_ends_replaced numbers pair :
  scan_end numbers pair =
    if bool_decide (numbers = []) || ends_replaced numbers pair
    then Raise IndexError else Return ().
Proof.
  rewrite (scan_end_replaced_from 0). unfold ends_replaced, replaced.
  case_bool_decide; [done|]. simpl. by destruct (last _).
Qed.
End merge_facts.

(** ** Dictionaries *)

Section dict_facts.
Context {K V : Type} `{EqDecision K}.
Implicit Types (k : K) (v : V) (d : list (K * V)).

Lemma dict_get_set k k' v d :
  dict_get k' (dict_set k v d) = if bool_decide (k = k') then Some v else dict_get k' d.
Proof.
  induction d as [|[k0 v0] d IH]; simpl.
  - done.
  - repeat (case_bool_decide; simpl); try congruence.
Qed.

Lemma dict_get_elem k v d : dict_get k d = Some v → (k, v) ∈ d.
Proof.
  induction d as [|[k0 v0] d IH]; simpl; [done|].
  case_bool_decide; [intros [= ->]; subst; apply list_elem_of_here | intros ?; apply list_elem_of_further; auto].
Qed.

Lemma dict_get_NoDup k v d : NoDup d.*1 → (k, v) ∈ d → dict_get k d = Some v.
Proof.
  induction d as [|[k0 v0] d IH]; simpl; [by intros _ ?%elem_of_nil|].
  intros [Hk0 Hd]%NoDup_cons [[= -> ->]|Hin]%elem_of_cons.
  - by rewrite bool_decide_eq_true_2.
  - rewrite bool_decide_eq_false_2; [auto|].
    intros ->. apply Hk0. by apply (list_elem_of_fmap_2 fst) in Hin.
Qed.

Lemma dict_set_keys k v d :
  (dict_set k v d).*1 = if bool_decide (k ∈ d.*1) then d.*1 else d.*1 ++ [k].
Proof.
  induction d as [|[k0 v0] d IH]; csimpl; [done|].
  destruct (decide (k0 = k)) as [->|Hne].
  - rewrite (bool_decide_eq_true_2 (k = k)) by done. csimpl.
    by rewrite bool_decide_eq_true_2 by apply list_elem_of_here.
  - rewrite (bool_decide_eq_false_2 (k0 = k)) by done. csimpl. rewrite IH.
    destruct (decide (k ∈ d.*1)) as [Hin|Hin].
    + rewrite !bool_decide_eq_true_2; [done|by apply list_elem_of_further|done].
    + rewrite !bool_decide_eq_false_2; [done| |done].
      rewrite not_elem_of_cons. split; [congruence|done].
Qed.

Lemma dict_set_NoDup k v d : NoDup d.*1 → NoDup (dict_set k v d).*1.
Proof.
  intros Hd. rewrite dict_set_keys. case_bool_decide; [done|].
  apply NoDup_app. split_and!; [done| |apply NoDup_singleton].
  intros x Hx ->%list_elem_of_singleton. done.
Qed.
End dict_facts.

Section max_facts.
Context {K : Type}.
Implicit Types (d : list (K * Z)).

Lemma max_from_elem best d : max_from best d = best ∨ max_from best d ∈ d.
Proof.
  revert best. induction d as [|kv d IH]; intros best; simpl; [by left|].
  destruct (IH (if bool_decide (best.2 < kv.2) then kv else best)) as [->|Hin].
  - case_bool_decide; [right; apply list_elem_of_here | by left].
  - right. by apply list_elem_of_further.
Qed.

Lemma max_from_ge_best best d : best.2 ≤ (max_from best d).2.
Proof.
  revert best. induction d as [|kv d IH]; intros best; simpl; [done|].
  etrans; [|apply IH]. case_bool_decide; lia.
Qed.

Lemma max_from_ge best d kv : kv ∈ d → kv.2 ≤ (max_from best d).2.
Proof.
  revert best. induction d as [|kv0 d IH]; intros best; simpl; [by intros ?%elem_of_nil|].
  intros [->|Hin]%elem_of_cons; [|by apply IH].
  etrans; [|apply max_from_ge_best]. case_bool_decide; lia.
Qed.

(** On a non-empty dictionary [max] returns a key whose value is
    greatest. *)
Lemma max_key_spec d :
  d ≠ [] →
  ∃ k v, max_key d = Return k ∧ (k, v) ∈ d ∧ ∀ kv, kv ∈ d → kv.2 ≤ v.
Proof.
  destruct d as [|kv0 d]; [done|]. intros _.
  exists (max_from kv0 d).1, (max_from kv0 d).2. split_and!; [done| |].
  - rewrite <-surjective_pairing.
    destruct (max_from_elem kv0 d) as [->|?];
      [apply list_elem_of_here|by apply list_elem_of_further].
  - intros kv [->|Hin]%elem_of_cons; [apply max_from_ge_best|by apply max_from_ge].
Qed.

Lemma max_key_nil_inv d e : max_key d = Raise e → d = [] ∧ e = ValueError.
Proof. destruct d; [by intros [= <-]|done]. Qed.
End max_facts.

(** ** [count_pairs] *)

Section count_facts.
Implicit Types (Dict : list (Z * Z * Z)) (q k : Z * Z) (data : list (list Z)).

Lemma count_seq_adjacent Dict (i : list Z) :
  count_seq Dict i = foldl count_incr Dict (adjacent i).
Proof.
  unfold count_seq.
  assert (H : adjacent i = (λ j, (i !!! j, i !!! S j)) <$> seq 0 (length i - 1)%nat).
  { induction i as [|a [|b t] IH]; [done..|].
    replace (length (a :: b :: t) - 1)%nat with (S (length t)) by (simpl; lia).
    replace (length (b :: t) - 1)%nat with (length t) in IH by (simpl; lia).
    cbn [seq]. rewrite fmap_cons, <-fmap_S_seq, <-list_fmap_compose.
    change (adjacent (a :: b :: t)) with ((a, b) :: adjacent (b :: t)).
    f_equal. rewrite IH. by apply list_fmap_ext. }
  rewrite H. generalize (seq 0 (length i - 1)%nat). intros js. revert Dict.
  induction js as [|j js IH]; intros Dict; simpl; [done|apply IH].
Qed.

Lemma count_pairs_adjacent data : count_pairs data = foldl count_incr [] (data ≫= adjacent).
Proof.
  unfold count_pairs. generalize (@nil (Z * Z * Z)) as Dict.
  induction data as [|i data IH]; intros Dict; simpl; [done|].
  rewrite IH, count_seq_adjacent, foldl_app. done.
Qed.

Lemma counted_incr q k Dict :
  counted q (count_incr Dict k) = counted q Dict + (if bool_decide (k = q) then 1 else 0).
Proof.
  unfold counted, count_incr.
  destruct (dict_get k Dict) as [c|] eqn:Hk; rewrite dict_get_set;
    case_bool_decide; subst; simpl; rewrite ?Hk; simpl; lia.
Qed.

Lemma occurrences_cons q k ps :
  occurrences q (k :: ps) = (if bool_decide (k = q) then 1 else 0) + occurrences q ps.
Proof.
  unfold occurrences. rewrite filter_cons.
  case_decide; case_bool_decide; try done; simpl length; lia.
Qed.

Lemma counted_foldl q ps Dict :
  counted q (foldl count_incr Dict ps) = counted q Dict + occurrences q ps.
Proof.
  revert Dict. induction ps as [|k ps IH]; intros Dict; simpl.
  - unfold occurrences. simpl. lia.
  - rewrite IH, counted_incr, occurrences_cons. lia.
Qed.

Lemma well_counted_incr Dict k : well_counted Dict → well_counted (count_incr Dict k).
Proof.
  intros [Hnd Hpos]. unfold count_incr. split.
  - destruct (dict_get k Dict); by apply dict_set_NoDup.
  - intros [k' v'] Hin. simpl.
    assert (Hget : dict_get k' (count_incr Dict k) = Some v').
    { apply dict_get_NoDup; [|done]. unfold count_incr.
      destruct (dict_get k Dict); by apply dict_set_NoDup. }
    unfold count_incr in Hget.
    destruct (dict_get k Dict) as [c|] eqn:Hk; rewrite dict_get_set in Hget;
      case_bool_decide; simplify_eq.
    + apply dict_get_elem, Hpos in Hk. simpl in Hk. lia.
    + apply dict_get_elem, Hpos in Hget. done.
    + lia.
    + apply dict_get_elem, Hpos in Hget. done.
Qed.

Lemma well_counted_foldl ps Dict :
  well_counted Dict → well_counted (foldl count_incr Dict ps).
Proof.
  revert Dict. induction ps as [|k ps IH]; intros Dict HD; simpl; [done|].
  by apply IH, well_counted_incr.
Qed.

Lemma well_counted_nil : well_counted [].
Proof. split; [constructor|by intros ? ?%elem_of_nil]. Qed.

Lemma counted_count_pairs data q : counted q (count_pairs data) = pair_freq q data.
Proof. rewrite count_pairs_adjacent, counted_foldl. unfold pair_freq, counted. simpl. lia. Qed.

Lemma well_counted_count_pairs data : well_counted (count_pairs data).
Proof. rewrite count_pairs_adjacent. apply well_counted_foldl, well_counted_nil. Qed.

(** [count_pairs] holds, for each pair that occurs, its pooled frequency. *)
Lemma count_pairs_elem data q v :
  (q, v) ∈ count_pairs data ↔ v = pair_freq q data ∧ 0 < v.
Proof.
  destruct (well_counted_count_pairs data) as [Hnd Hpos].
  pose proof (counted_count_pairs data q) as Hc. unfold counted in Hc.
  split.
  - intros Hin. pose proof (Hpos _ Hin) as Hv. simpl in Hv.
    apply dict_get_NoDup in Hin; [|done].
    rewrite Hin in Hc. simpl in Hc. split; [lia|done].
  - intros [-> Hv].
    destruct (dict_get q (count_pairs data)) as [c|] eqn:Hget; simpl in Hc.
    + apply dict_get_elem in Hget. by rewrite <-Hc.
    + lia.
Qed.

Lemma count_pairs_get data q :
  dict_get q (count_pairs data) =
  if bool_decide (0 < pair_freq q data) then Some (pair_freq q data) else None.
Proof.
  destruct (well_counted_count_pairs data) as [Hnd Hpos].
  case_bool_decide as Hq.
  - apply dict_get_NoDup; [done|]. by apply count_pairs_elem.
  - destruct (dict_get q (count_pairs data)) as [c|] eqn:Hget; [|done].
    apply dict_get_elem, count_pairs_elem in Hget. lia.
Qed.

Lemma occurrences_nonneg q ps : 0 ≤ occurrences q ps.
Proof. unfold occurrences. lia. Qed.

Lemma occurrences_pos q ps : 0 < occurrences q ps ↔ q ∈ ps.
Proof.
  induction ps as [|k ps IH].
  - split; [by unfold occurrences; simpl; lia|by intros ?%elem_of_nil].
  - rewrite occurrences_cons, elem_of_cons, <-IH.
    pose proof (occurrences_nonneg q ps).
    destruct (decide (k = q)) as [->|Hne].
    + rewrite bool_decide_eq_true_2 by done. split; [by left|lia].
    + rewrite bool_decide_eq_false_2 by done. split; [right; lia|intros [?|?]; [congruence|lia]].
Qed.

Lemma count_pairs_nil_iff data : count_pairs data = [] ↔ data ≫= adjacent = [].
Proof.
  split.
  - intros Hnil. destruct (data ≫= adjacent) as [|q ps] eqn:Hps; [done|].
    assert (Hq : 0 < pair_freq q data).
    { unfold pair_freq. rewrite Hps. apply occurrences_pos, list_elem_of_here. }
    pose proof (count_pairs_get data q) as Hget.
    rewrite bool_decide_eq_true_2, Hnil in Hget by done. done.
  - intros Hnil. by rewrite count_pairs_adjacent, Hnil.
Qed.
End count_facts.

(** ** Resetting the vocabulary *)

Section init_facts.
Implicit Types (self : tokenizer).

Lemma byte_init_vocab self :
  ByteTokenizer.init_vocab self =
  (Tokenizer base_vocab (merges self) (Some 256) (Some 257) (Some 258), Return ()).
Proof.
  unfold ByteTokenizer.init_vocab.
  set (v := foldl ByteTokenizer.add_special _ special_tokens).
  assert (Hv : v = base_vocab) by (vm_compute; reflexivity).
  assert (Hpad : subscript (ByteTokenizer.token_to_id v) pad_token = Return 256)
    by (vm_compute; reflexivity).
  assert (Hbos : subscript (ByteTokenizer.token_to_id v) bos_token = Return 257)
    by (vm_compute; reflexivity).
  assert (Heos : subscript (ByteTokenizer.token_to_id v) eos_token = Return 258)
    by (vm_compute; reflexivity).
  rewrite Hpad, Hbos, Heos, Hv. done.
Qed.

Lemma bpe_init_vocab self : BpeTokenizer.init_vocab self = (base_tokenizer, Return ()).
Proof. unfold BpeTokenizer.init_vocab. by rewrite byte_init_vocab. Qed.

Lemma base_vocab_size : size base_vocab = 259%nat.
Proof. vm_compute. reflexivity. Qed.

Lemma base_vocab_bytes idx : 0 ≤ idx < 256 → base_vocab !! idx = Some [idx].
Proof.
  intros Hidx.
  assert (H : bool_decide (Forall (λ i, base_vocab !! i = Some [i]) (seqZ 0 256)) = true)
    by (vm_compute; reflexivity).
  apply bool_decide_eq_true_1 in H.
  rewrite Forall_forall in H. apply H, elem_of_seqZ. lia.
Qed.

Lemma base_vocab_lookup idx : is_Some (base_vocab !! idx) ↔ 0 ≤ idx < 259.
Proof.
  assert (H : dom base_vocab = list_to_set (seqZ 0 259)) by (vm_compute; reflexivity).
  rewrite <-elem_of_dom, H, elem_of_list_to_set, elem_of_seqZ. lia.
Qed.
End init_facts.

(** ** The UTF-8 codec *)

Section codec_facts.

Local Ltac arith := Z.div_mod_to_equations; lia.

(** Settle every test of the decoder that the bounds at hand decide. *)
Local Ltac settle :=
  repeat match goal with
  | |- context [bool_decide ?P] =>
      first [ rewrite (bool_decide_eq_true_2 P) by arith
            | rewrite (bool_decide_eq_false_2 P) by arith ]
  end.

Lemma decode_encode_point c :
  is_scalar c = true →
  ∃ bs, encode_point c = Return bs ∧ is_bytes bs
        ∧ ∀ rest, utf8_decode (bs ++ rest) = c :: utf8_decode rest.
Proof.
  intros Hc. unfold encode_point. rewrite Hc. cbn [negb].
  apply bool_decide_eq_true_1 in Hc.
  destruct (decide (c < 0x80)) as [H1|H1]; [|destruct (decide (c < 0x800)) as [H2|H2];
    [|destruct (decide (c < 0x10000)) as [H3|H3]]]; settle;
    (eexists; split; [reflexivity|]; split;
      [unfold is_bytes; repeat (apply Forall_cons; split; [arith|]); by apply Forall_nil|]);
    intros rest; cbn [app utf8_decode]; unfold second_of_3, second_of_4, is_cont.
  - settle. done.
  - settle. f_equal. arith.
  - settle. destruct (decide (0xE0 + c / 4096 = 0xE0)); settle;
      [|destruct (decide (0xE0 + c / 4096 = 0xED)); settle]; f_equal; arith.
  - settle. destruct (decide (0xF0 + c / 262144 = 0xF0)); settle;
      [|destruct (decide (0xF0 + c / 262144 = 0xF4)); settle]; f_equal; arith.
Qed.

Lemma decode_encode text :
  valid_str text →
  ∃ bs, utf8_encode text = Return bs ∧ is_bytes bs ∧ utf8_decode bs = text.
Proof.
  induction 1 as [|c text Hc _ (rest & Hrest & Hbytes & Hdec)].
  - exists []. split_and!; [done|constructor|done].
  - destruct (decode_encode_point c Hc) as (bs & Hbs & Hb & Hd).
    exists (bs ++ rest). cbn [utf8_encode]. rewrite Hbs, Hrest. cbn [bind].
    split_and!; [done|by apply Forall_app|]. by rewrite Hd, Hdec.
Qed.

End codec_facts.

(** ** The rewrite and the adjacent pairs *)

Section rewrite_facts.
Implicit Types (numbers : list Z) (pair q : Z * Z) (idx : Z).

Lemma adjacent_cons2 a b t : adjacent (a :: b :: t) = (a, b) :: adjacent (b :: t).
Proof. reflexivity. Qed.

Lemma replace_pairs_length numbers pair idx :
  (length (replace_pairs numbers pair idx) ≤ length numbers)%nat.
Proof.
  induction numbers as [|a|a b t IHt IHbt] using scan_ind; [done..|].
  rewrite replace_pairs_cons2. destruct (bool_decide _); simpl in *; lia.
Qed.

(** A pair that occurs is replaced at least once. *)
Lemma replace_pairs_shorter numbers pair idx :
  pair ∈ adjacent numbers →
  (length (replace_pairs numbers pair idx) < length numbers)%nat.
Proof.
  induction numbers as [|a|a b t IHt IHbt] using scan_ind;
    [by intros ?%elem_of_nil..|].
  rewrite replace_pairs_cons2, adjacent_cons2.
  destruct (decide ((a, b) = pair)) as [Heq|Hne].
  - rewrite bool_decide_eq_true_2 by done. intros _.
    pose proof (replace_pairs_length t pair idx). simpl. lia.
  - rewrite bool_decide_eq_false_2 by done.
    intros [?|Hin]%elem_of_cons; [congruence|].
    apply IHbt in Hin. simpl in *. lia.
Qed.

Lemma adjacent_nil_iff numbers : adjacent numbers = [] ↔ (length numbers ≤ 1)%nat.
Proof. destruct numbers as [|a [|b t]]; simpl; split; (done || lia). Qed.
End rewrite_facts.

(** ** [BpeTokenizer.encode] *)

Section encode_facts.
Implicit Types (self : tokenizer) (ids : list Z).

Lemma pair_freq_single q ids : pair_freq q [ids] = occurrences q (adjacent ids).
Proof. unfold pair_freq. simpl. by rewrite app_nil_r. Qed.

(** The pair that [max] selects in a sequence with at least two ids. *)
Lemma selected_pair ids :
  (1 < length ids)%nat →
  ∃ pair, max_key (count_pairs [ids]) = Return pair
          ∧ pair ∈ adjacent ids
          ∧ ∀ q, pair_freq q [ids] ≤ pair_freq pair [ids].
Proof.
  intros Hlen.
  destruct (max_key_spec (count_pairs [ids])) as (pair & v & Hmax & Hin & Hge).
  { rewrite count_pairs_nil_iff. simpl. rewrite app_nil_r, adjacent_nil_iff. lia. }
  apply count_pairs_elem in Hin as [-> Hpos].
  exists pair. split_and!; [done| |].
  - rewrite pair_freq_single in Hpos. by apply occurrences_pos in Hpos.
  - intros q. destruct (decide (0 < pair_freq q [ids])) as [Hq|Hq]; [|lia].
    apply (Hge (q, pair_freq q [ids])), count_pairs_elem. done.
Qed.

Lemma encode_body_short self ids :
  (length ids ≤ 1)%nat → BpeTokenizer.encode_body self ids = Return (Break, ids).
Proof.
  intros Hlen. unfold BpeTokenizer.encode_body.
  by rewrite bool_decide_eq_false_2 by lia.
Qed.

Lemma encode_body_long self ids pair :
  (1 < length ids)%nat →
  max_key (count_pairs [ids]) = Return pair →
  BpeTokenizer.encode_body self ids =
    match merges self !! pair with
    | None => Return (Break, ids)
    | Some idx =>
        bind (scan_end ids pair) (λ _, Return (Continue, replace_pairs ids pair idx))
    end.
Proof.
  intros Hlen Hmax. unfold BpeTokenizer.encode_body.
  rewrite bool_decide_eq_true_2, Hmax by done. cbn [bind].
  destruct (merges self !! pair) as [idx|]; [|done].
  by rewrite merge_scan.
Qed.

(** The budget of [encode_loop] is never used up. *)
Lemma encode_loop_budget fuel self ids :
  (length ids ≤ S fuel)%nat →
  BpeTokenizer.encode_loop fuel self ids ≠ Exhausted.
Proof.
  revert ids. induction fuel as [|fuel IH]; intros ids Hlen.
  - simpl. by rewrite encode_body_short by done.
  - cbn [BpeTokenizer.encode_loop].
    destruct (decide (length ids ≤ 1)%nat) as [Hshort|Hlong].
    { by rewrite encode_body_short by done. }
    destruct (selected_pair ids) as (pair & Hmax & Hin & _); [lia|].
    rewrite (encode_body_long self ids pair) by (done || lia).
    destruct (merges self !! pair) as [idx|]; [|done].
    destruct (scan_end ids pair) as [[]| |] eqn:Hend; cbn [bind]; try done.
    + apply IH. pose proof (replace_pairs_shorter ids pair idx Hin). lia.
    + revert Hend. rewrite scan_end_ends_replaced. by destruct (_ || _).
Qed.

(** [encode] on a valid string ends by returning or by raising. *)
Lemma encode_total self text :
  valid_str text → BpeTokenizer.encode self text ≠ Exhausted.
Proof.
  intros (bs & Hbs & _ & _)%decode_encode. unfold BpeTokenizer.encode.
  rewrite Hbs. cbn [bind]. apply encode_loop_budget. lia.
Qed.

(** Without merges the loop stops at its first test. *)
Lemma encode_loop_no_merges fuel self ids :
  merges self = ∅ → BpeTokenizer.encode_loop fuel self ids = Return ids.
Proof.
  intros Hm.
  assert (Hbody : BpeTokenizer.encode_body self ids = Return (Break, ids)).
  { destruct (decide (length ids ≤ 1)%nat) as [Hshort|Hlong].
    - by apply encode_body_short.
    - destruct (selected_pair ids) as (pair & Hmax & _); [lia|].
      rewrite (encode_body_long self ids pair) by (done || lia).
      by rewrite Hm, lookup_empty. }
  destruct fuel; simpl; by rewrite Hbody.
Qed.

Lemma join_base_vocab bs : is_bytes bs → ByteTokenizer.join_vocab base_vocab bs = Return bs.
Proof.
  induction 1 as [|b bs Hb _ IH]; [done|].
  cbn [ByteTokenizer.join_vocab]. unfold subscript.
  rewrite base_vocab_bytes by done. cbn [bind]. by rewrite IH.
Qed.
End encode_facts.

(** ** What the rewrite does to ids and adjacent pairs *)

Section rewrite_pairs.
Implicit Types (numbers : list Z) (pair q : Z * Z) (idx : Z).

Lemma adjacent_elems a b numbers : (a, b) ∈ adjacent numbers → a ∈ numbers ∧ b ∈ numbers.
Proof.
  induction numbers as [|x [|y t] IH]; [by intros ?%elem_of_nil..|].
  rewrite adjacent_cons2. intros [[= -> ->]|Hin]%elem_of_cons.
  - split; [apply list_elem_of_here|apply list_elem_of_further, list_elem_of_here].
  - destruct (IH Hin). split; by apply list_elem_of_further.
Qed.

Lemma adjacent_further q a numbers : q ∈ adjacent numbers → q ∈ adjacent (a :: numbers).
Proof. destruct numbers as [|b t]; [done|]. rewrite adjacent_cons2. apply list_elem_of_further. Qed.

Lemma replace_pairs_elem x numbers pair idx :
  x ∈ replace_pairs numbers pair idx → x = idx ∨ x ∈ numbers.
Proof.
  induction numbers as [|a|a b t IHt IHbt] using scan_ind; [by right..|].
  rewrite replace_pairs_cons2. destruct (bool_decide _).
  - intros [->|Hin]%elem_of_cons; [by left|].
    destruct (IHt Hin); [by left|right]. by do 2 apply list_elem_of_further.
  - intros [->|Hin]%elem_of_cons; [right; apply list_elem_of_here|].
    destruct (IHbt Hin); [by left|right]. by apply list_elem_of_further.
Qed.

Lemma replace_pairs_head b t pair idx :
  ∃ rest, replace_pairs (b :: t) pair idx = b :: rest
          ∨ replace_pairs (b :: t) pair idx = idx :: rest.
Proof.
  destruct t as [|c t]; [by exists []; left|].
  rewrite replace_pairs_cons2. destruct (bool_decide _); eauto.
Qed.

Lemma adjacent_cons_inv q x l :
  q ∈ adjacent (x :: l) → (∃ y t, l = y :: t ∧ q = (x, y)) ∨ q ∈ adjacent l.
Proof.
  destruct l as [|y t]; [by intros ?%elem_of_nil|].
  rewrite adjacent_cons2. intros [->|Hin]%elem_of_cons; [left; eauto|by right].
Qed.

(** A pair that is adjacent after the rewrite was adjacent before it,
    unless it holds the new id. *)
Lemma adjacent_replace_pairs q numbers pair idx :
  q ∈ adjacent (replace_pairs numbers pair idx) →
  q ∈ adjacent numbers ∨ q.1 = idx ∨ q.2 = idx.
Proof.
  induction numbers as [|a|a b t IHt IHbt] using scan_ind; [by left..|].
  rewrite replace_pairs_cons2. destruct (bool_decide _).
  - intros [(y & t' & _ & ->)|Hin]%adjacent_cons_inv; [by right; left|].
    destruct (IHt Hin) as [?|?]; [left|by right].
    by do 2 apply adjacent_further.
  - intros [(y & t' & Hrest & ->)|Hin]%adjacent_cons_inv.
    + destruct (replace_pairs_head b t pair idx) as [rest [Hr|Hr]];
        rewrite Hr in Hrest; simplify_eq.
      * left. rewrite adjacent_cons2. apply list_elem_of_here.
      * right; by right.
    + destruct (IHbt Hin) as [?|?]; [left|by right]. by apply adjacent_further.
Qed.

(** The replaced pair is no longer adjacent, as long as the new id is
    not one of its components. *)
Lemma adjacent_replace_pairs_gone numbers pair idx :
  idx ≠ pair.1 → idx ≠ pair.2 → pair ∉ adjacent (replace_pairs numbers pair idx).
Proof.
  intros H1 H2.
  induction numbers as [|a|a b t IHt IHbt] using scan_ind;
    [by intros ?%elem_of_nil..|].
  rewrite replace_pairs_cons2. destruct (decide ((a, b) = pair)) as [Heq|Hne].
  - rewrite bool_decide_eq_true_2 by done.
    intros [(y & t' & _ & ->)|Hin]%adjacent_cons_inv; [done|by apply IHt].
  - rewrite bool_decide_eq_false_2 by done.
    intros [(y & t' & Hrest & ->)|Hin]%adjacent_cons_inv; [|by apply IHbt].
    destruct (replace_pairs_head b t (a, y) idx) as [rest [Hr|Hr]];
      rewrite Hr in Hrest; by simplify_eq.
Qed.
End rewrite_pairs.

(** ** Merging every working sequence *)

Section merge_each_facts.
Implicit Types (list_of_ids : list (list Z)) (pair : Z * Z) (idx : Z).

Lemma scan_end_cases numbers pair :
  scan_end numbers pair = Return () ∨ scan_end numbers pair = Raise IndexError.
Proof. rewrite scan_end_ends_replaced. destruct (_ || _); auto. Qed.

Lemma merge_each_cases list_of_ids pair idx :
  BpeTokenizer.merge_each list_of_ids pair idx
    = ((λ ids, replace_pairs ids pair idx) <$> list_of_ids, Return ())
  ∨ (BpeTokenizer.merge_each list_of_ids pair idx).2 = Raise IndexError.
Proof.
  induction list_of_ids as [|ids rest IH]; [by left|].
  cbn [BpeTokenizer.merge_each]. rewrite merge_scan.
  destruct (scan_end_cases ids pair) as [-> | ->]; [|by right].
  destruct IH as [-> | Hraise]; [by left|right].
  by destruct (BpeTokenizer.merge_each rest pair idx).
Qed.
End merge_each_facts.

(** ** Training *)

Section train_facts.
Implicit Types (tk : tokenizer) (st : BpeTokenizer.train_state)
  (list_of_ids : list (list Z)) (pair q : Z * Z).

(** The pair that [max] selects among the pooled counts. *)
Lemma selected_training_pair list_of_ids pair :
  max_key (count_pairs list_of_ids) = Return pair →
  dict_get pair (count_pairs list_of_ids) = Some (pair_freq pair list_of_ids)
  ∧ 0 < pair_freq pair list_of_ids
  ∧ (∀ q, pair_freq q list_of_ids ≤ pair_freq pair list_of_ids)
  ∧ ∃ ids, ids ∈ list_of_ids ∧ pair ∈ adjacent ids.
Proof.
  intros Hmax.
  destruct (max_key_spec (count_pairs list_of_ids)) as (k & v & Hk & Hin & Hge).
  { intros Hnil. by rewrite Hnil in Hmax. }
  rewrite Hmax in Hk. injection Hk as <-.
  apply count_pairs_elem in Hin as [-> Hpos].
  split_and!; [|done| |].
  - by rewrite count_pairs_get, bool_decide_eq_true_2.
  - intros q. destruct (decide (0 < pair_freq q list_of_ids)) as [Hq|Hq]; [|lia].
    apply (Hge (q, pair_freq q list_of_ids)), count_pairs_elem. done.
  - apply occurrences_pos, list_elem_of_bind in Hpos as (ids & ? & ?). eauto.
Qed.

Lemma dense_fresh (v : gmap Z (list Z)) : dense v → v !! Z.of_nat (size v) = None.
Proof.
  intros Hd. apply eq_None_not_Some. intros Hs%Hd. lia.
Qed.

Lemma dense_insert (v : gmap Z (list Z)) token :
  dense v → dense (<[Z.of_nat (size v) := token]> v).
Proof.
  intros Hd idx. pose proof (dense_fresh v Hd) as Hfresh.
  rewrite map_size_insert_None; [|done].
  rewrite lookup_insert_is_Some, (Hd idx). lia.
Qed.

(** Recording a merge keeps the tokenizer invariant. *)
Lemma record_merge_inv tk pair bl br :
  tok_inv tk →
  vocab tk !! pair.1 = Some bl → vocab tk !! pair.2 = Some br →
  merges tk !! pair = None →
  tok_inv (record_merge tk pair (bl ++ br)).
Proof.
  intros (Hd & Hs & Hsize) H1 H2 Hnew. pose proof (dense_fresh _ Hd) as Hfresh.
  assert (Hold : ∀ idx, is_Some (vocab tk !! idx) →
            <[Z.of_nat (size (vocab tk)) := bl ++ br]> (vocab tk) !! idx = vocab tk !! idx).
  { intros idx Hidx. apply lookup_insert_ne. intros <-. rewrite Hfresh in Hidx.
    by destruct Hidx. }
  split_and!; cbn [record_merge vocab merges].
  - by apply dense_insert.
  - intros l r new_id. cbn [record_merge vocab merges].
    destruct (decide (pair = (l, r))) as [->|Hne].
    + rewrite lookup_insert_eq. intros [= <-]. simpl in H1, H2.
      assert (Hl : is_Some (vocab tk !! l)) by eauto.
      assert (Hr : is_Some (vocab tk !! r)) by eauto.
      split_and!; [apply Hd in Hl; lia|apply Hd in Hr; lia|].
      exists bl, br. rewrite !Hold by done. by rewrite lookup_insert_eq.
    + rewrite lookup_insert_ne by done. intros Hm.
      destruct (Hs _ _ _ Hm) as (? & ? & bl' & br' & Hl & Hr & Hn).
      split_and!; [done..|]. exists bl', br'. rewrite !Hold by eauto. done.
  - rewrite !map_size_insert_None by done. lia.
Qed.

(** The merged sequences satisfy the sequence invariant again. *)
Lemma record_merge_seq_inv tk list_of_ids pair token ids0 :
  tok_inv tk → seq_inv tk list_of_ids →
  ids0 ∈ list_of_ids → pair ∈ adjacent ids0 →
  seq_inv (record_merge tk pair token)
    ((λ ids, replace_pairs ids pair (Z.of_nat (size (vocab tk)))) <$> list_of_ids).
Proof.
  intros (Hd & Hs & Hsize) [Hids Hadj] Hids0 Hpair.
  set (new_idx := Z.of_nat (size (vocab tk))).
  assert (Hlt : ∀ ids id, ids ∈ list_of_ids → id ∈ ids → id < new_idx).
  { intros ids id ? ?. assert (Hi : is_Some (vocab tk !! id)) by eauto.
    apply Hd in Hi. unfold new_idx. lia. }
  assert (Hkey : ∀ l r n, merges tk !! (l, r) = Some n → l < new_idx ∧ r < new_idx).
  { intros l r n Hm. destruct (Hs _ _ _ Hm) as (? & ? & bl & br & _ & _ & Hn).
    assert (Hi : is_Some (vocab tk !! n)) by eauto. apply Hd in Hi.
    unfold new_idx. lia. }
  split.
  - intros ids' id (ids & -> & Hin)%list_elem_of_fmap [->|Hid]%replace_pairs_elem;
      cbn [record_merge vocab merges]; fold new_idx.
    + rewrite lookup_insert_eq. eauto.
    + rewrite lookup_insert_ne by (apply Hlt in Hid; [lia|done]). eauto.
  - intros ids' q (ids & -> & Hin)%list_elem_of_fmap Hq.
    cbn [record_merge vocab merges]; fold new_idx.
    destruct pair as [p1 p2]. apply adjacent_elems in Hpair as [Hp1 Hp2].
    pose proof (Hlt _ _ Hids0 Hp1). pose proof (Hlt _ _ Hids0 Hp2).
    destruct (decide (q = (p1, p2))) as [->|Hne].
    { apply adjacent_replace_pairs_gone in Hq; [done|simpl; lia..]. }
    rewrite lookup_insert_ne by done.
    apply adjacent_replace_pairs in Hq as [Hq|Hq]; [by eapply Hadj|].
    destruct q as [l r]. simpl in Hq.
    destruct (merges tk !! (l, r)) as [n|] eqn:Hm; [|done].
    apply Hkey in Hm. lia.
Qed.

(** What one iteration of the training loop does. *)
Lemma train_body_spec st :
  tok_inv (BpeTokenizer.self st) →
  seq_inv (BpeTokenizer.self st) (BpeTokenizer.list_of_ids st) →
  BpeTokenizer.train_body st = (st, Raise ValueError)
  ∨ BpeTokenizer.train_body st = (st, Return Break)
  ∨ ∃ pair bl br,
      vocab (BpeTokenizer.self st) !! pair.1 = Some bl
      ∧ vocab (BpeTokenizer.self st) !! pair.2 = Some br
      ∧ merges (BpeTokenizer.self st) !! pair = None
      ∧ ∃ st', BpeTokenizer.self st' = record_merge (BpeTokenizer.self st) pair (bl ++ br)
          ∧ (BpeTokenizer.train_body st = (st', Raise IndexError)
             ∨ BpeTokenizer.train_body st = (st', Return Continue)
               ∧ seq_inv (BpeTokenizer.self st') (BpeTokenizer.list_of_ids st')).
Proof.
  intros Htok Hseq. destruct st as [tk list_of_ids]. cbn [BpeTokenizer.self BpeTokenizer.list_of_ids] in *.
  unfold BpeTokenizer.train_body. cbn [BpeTokenizer.self BpeTokenizer.list_of_ids].
  destruct (max_key (count_pairs list_of_ids)) as [pair|e|] eqn:Hmax.
  - destruct (selected_training_pair _ _ Hmax) as (Hget & Hpos & Hge & ids0 & Hids0 & Hpair).
    cbn zeta. rewrite Hget.
    case_bool_decide as Hfreq; [by right; left|].
    right; right. destruct Hseq as [Hids Hadj].
    destruct pair as [p1 p2]. pose proof (adjacent_elems _ _ _ Hpair) as [Hp1 Hp2].
    destruct (Hids _ _ Hids0 Hp1) as [bl Hbl]. destruct (Hids _ _ Hids0 Hp2) as [br Hbr].
    exists (p1, p2), bl, br. split_and!; [done|done|by eapply Hadj|].
    unfold subscript. cbn [fst snd]. rewrite Hbl, Hbr.
    destruct (merge_each_cases list_of_ids (p1, p2) (Z.of_nat (size (vocab tk)))) as [Hm|Hm].
    + rewrite Hm. eexists. split; [|right; split; [reflexivity|]]; [done|].
      cbn [BpeTokenizer.self BpeTokenizer.list_of_ids].
      by apply (record_merge_seq_inv tk list_of_ids (p1, p2) (bl ++ br) ids0).
    + destruct (BpeTokenizer.merge_each _ _ _) as [ids' r]. simpl in Hm. subst r.
      eexists. split; [|left; reflexivity]. done.
  - apply max_key_nil_inv in Hmax as [_ ->]. by left.
  - by destruct (count_pairs list_of_ids).
Qed.
End train_facts.

Section train_loop_facts.
Implicit Types (tk : tokenizer) (st : BpeTokenizer.train_state)
  (list_of_ids : list (list Z)) (pair q : Z * Z).

Lemma base_tok_inv : tok_inv base_tokenizer.
Proof.
  split_and!.
  - intros idx. cbn [vocab base_tokenizer].
    rewrite base_vocab_lookup, base_vocab_size. lia.
  - intros l r n. cbn [merges base_tokenizer]. by rewrite lookup_empty.
  - cbn [vocab merges base_tokenizer]. by rewrite base_vocab_size, map_size_empty.
Qed.

Lemma encode_point_bytes c bs : encode_point c = Return bs → is_bytes bs.
Proof.
  intros Hbs. destruct (is_scalar c) eqn:Hc.
  - destruct (decode_encode_point c Hc) as (bs' & Hbs' & ? & _). congruence.
  - unfold encode_point in Hbs. by rewrite Hc in Hbs.
Qed.

Lemma utf8_encode_bytes text bs : utf8_encode text = Return bs → is_bytes bs.
Proof.
  revert bs. induction text as [|c text IH]; intros bs; cbn [utf8_encode].
  - intros [= <-]. constructor.
  - destruct (encode_point c) as [b| |] eqn:Hc; [|done..].
    destruct (utf8_encode text) as [rest| |]; [|done..].
    cbn [bind]. intros [= <-]. apply Forall_app. split; [by eapply encode_point_bytes|by apply IH].
Qed.

Lemma encode_texts_bytes texts list_of_ids :
  BpeTokenizer.encode_texts texts = Return list_of_ids → Forall is_bytes list_of_ids.
Proof.
  revert list_of_ids. induction texts as [|text texts IH]; intros list_of_ids;
    cbn [BpeTokenizer.encode_texts].
  - intros [= <-]. constructor.
  - destruct (utf8_encode text) as [ids| |] eqn:Hids; [|done..].
    destruct (BpeTokenizer.encode_texts texts) as [rest| |]; [|done..].
    cbn [bind]. intros [= <-]. constructor; [by eapply utf8_encode_bytes|by apply IH].
Qed.

Lemma base_seq_inv list_of_ids : Forall is_bytes list_of_ids → seq_inv base_tokenizer list_of_ids.
Proof.
  intros Hb. split.
  - intros ids id Hids Hid. cbn [vocab base_tokenizer].
    rewrite Forall_forall in Hb. apply Hb in Hids.
    unfold is_bytes in Hids. rewrite Forall_forall in Hids. apply Hids in Hid.
    apply base_vocab_lookup. lia.
  - intros. apply lookup_empty.
Qed.

Lemma records_size tk tk' :
  tok_inv tk → records_at_most_one tk tk' →
  tok_inv tk' ∧ (size (vocab tk') ≤ S (size (vocab tk)))%nat
  ∧ (tk' = tk
     ∨ size (vocab tk') = S (size (vocab tk)) ∧ size (merges tk') = S (size (merges tk))).
Proof.
  intros Htok [->|(pair & bl & br & H1 & H2 & Hnew & ->)]; [split_and!; auto|].
  pose proof (record_merge_inv tk pair bl br Htok H1 H2 Hnew) as Htok'.
  destruct Htok as (Hd & _ & _).
  assert (Hv : size (vocab (record_merge tk pair (bl ++ br))) = S (size (vocab tk))).
  { cbn [record_merge vocab]. apply map_size_insert_None. by apply dense_fresh. }
  assert (Hm : size (merges (record_merge tk pair (bl ++ br))) = S (size (merges tk))).
  { cbn [record_merge merges]. by apply map_size_insert_None. }
  split_and!; [done|lia|by right].
Qed.

(** The invariants after any number of iterations. *)
Lemma train_loop_inv n st :
  tok_inv (BpeTokenizer.self st) →
  seq_inv (BpeTokenizer.self st) (BpeTokenizer.list_of_ids st) →
  tok_inv (BpeTokenizer.self (BpeTokenizer.train_loop n st).1)
  ∧ (size (vocab (BpeTokenizer.self (BpeTokenizer.train_loop n st).1))
     ≤ size (vocab (BpeTokenizer.self st)) + n)%nat
  ∧ ((BpeTokenizer.train_loop n st).2 = Return ()
     ∨ (BpeTokenizer.train_loop n st).2 = Raise ValueError
     ∨ (BpeTokenizer.train_loop n st).2 = Raise IndexError).
Proof.
  revert st. induction n as [|n IH]; intros st Htok Hseq.
  { simpl. split_and!; [done|lia|by left]. }
  cbn [BpeTokenizer.train_loop].
  destruct (train_body_spec st Htok Hseq)
    as [->|[->|(pair & bl & br & H1 & H2 & Hnew & st' & Hst' & Hbody)]].
  - simpl. split_and!; [done|lia|auto].
  - simpl. split_and!; [done|lia|auto].
  - assert (Hrec : records_at_most_one (BpeTokenizer.self st) (BpeTokenizer.self st')).
    { right. exists pair, bl, br. by rewrite Hst'. }
    destruct (records_size _ _ Htok Hrec) as (Htok' & Hsz & _).
    destruct Hbody as [->|[-> Hseq']].
    + simpl. split_and!; [done|lia|auto].
    + destruct (IH st' Htok' Hseq') as (? & ? & ?). split_and!; [done|lia|done].
Qed.

(** One more iteration records at most one merge. *)
Lemma train_loop_step k st :
  tok_inv (BpeTokenizer.self st) →
  seq_inv (BpeTokenizer.self st) (BpeTokenizer.list_of_ids st) →
  records_at_most_one (BpeTokenizer.self (BpeTokenizer.train_loop k st).1)
                      (BpeTokenizer.self (BpeTokenizer.train_loop (S k) st).1).
Proof.
  revert st. induction k as [|k IH]; intros st Htok Hseq.
  - cbn [BpeTokenizer.train_loop].
    destruct (train_body_spec st Htok Hseq)
      as [->|[->|(pair & bl & br & H1 & H2 & Hnew & st' & Hst' & Hbody)]];
      [by left..|].
    right. exists pair, bl, br. split_and!; [done..|].
    by destruct Hbody as [->|[-> _]].
  - change (BpeTokenizer.train_loop (S (S k)) st) with
      (match BpeTokenizer.train_body st with
       | (st', Return Continue) => BpeTokenizer.train_loop (S k) st'
       | (st', r) => (st', bind r (λ _, Return ()))
       end).
    change (BpeTokenizer.train_loop (S k) st) with
      (match BpeTokenizer.train_body st with
       | (st', Return Continue) => BpeTokenizer.train_loop k st'
       | (st', r) => (st', bind r (λ _, Return ()))
       end).
    destruct (train_body_spec st Htok Hseq)
      as [->|[->|(pair & bl & br & H1 & H2 & Hnew & st' & Hst' & Hbody)]];
      [by left..|].
    destruct Hbody as [->|[-> Hseq']]; [by left|].
    apply IH; [|done]. rewrite Hst'. by apply record_merge_inv.
Qed.

Lemma train_iterations_le n st : (BpeTokenizer.train_iterations n st ≤ n)%nat.
Proof.
  revert st. induction n as [|n IH]; intros st; [done|].
  cbn [BpeTokenizer.train_iterations].
  destruct (BpeTokenizer.train_body st) as [st' [[]|e|]]; try lia.
  specialize (IH st'). lia.
Qed.

(** [train] in terms of its loop, once the vocabulary is reset. *)
Lemma train_unfold self texts max_vocab :
  BpeTokenizer.train self texts max_vocab =
  if bool_decide (max_vocab ≤ 259) then (base_tokenizer, Return ())
  else match BpeTokenizer.encode_texts texts with
       | Return ids =>
           let res := BpeTokenizer.train_loop (Z.to_nat (max_vocab - 259))
                        (BpeTokenizer.TrainState base_tokenizer ids) in
           (BpeTokenizer.self res.1, res.2)
       | r => (base_tokenizer, bind r (λ _, Return ()))
       end.
Proof.
  unfold BpeTokenizer.train. rewrite bpe_init_vocab. cbn [vocab base_tokenizer].
  rewrite base_vocab_size. change (Z.of_nat 259) with 259.
  destruct (bool_decide _); [done|].
  destruct (BpeTokenizer.encode_texts texts); [|done..].
  by destruct (BpeTokenizer.train_loop _ _).
Qed.

Lemma train_tok_inv self texts max_vocab :
  tok_inv (BpeTokenizer.train self texts max_vocab).1
  ∧ Z.of_nat (size (vocab (BpeTokenizer.train self texts max_vocab).1)) ≤ Z.max 259 max_vocab.
Proof.
  rewrite train_unfold. case_bool_decide as Hmax.
  { cbn [fst]. split; [apply base_tok_inv|]. cbn [vocab base_tokenizer].
    rewrite base_vocab_size. lia. }
  destruct (BpeTokenizer.encode_texts texts) as [ids|e|] eqn:Hids; cbn [fst].
  - destruct (train_loop_inv (Z.to_nat (max_vocab - 259))
                (BpeTokenizer.TrainState base_tokenizer ids)) as (Htok & Hsz & _).
    + apply base_tok_inv.
    + by eapply base_seq_inv, encode_texts_bytes.
    + split; [done|]. cbn [BpeTokenizer.self vocab base_tokenizer] in Hsz.
      rewrite base_vocab_size in Hsz. lia.
  - split; [apply base_tok_inv|]. cbn [vocab base_tokenizer]. rewrite base_vocab_size. lia.
  - split; [apply base_tok_inv|]. cbn [vocab base_tokenizer]. rewrite base_vocab_size. lia.
Qed.
End train_loop_facts.

(** ** The claims *)

Lemma bpe_new : BpeTokenizer.new = (base_tokenizer, Return ()).
Proof. apply bpe_init_vocab. Qed.

Lemma heap_merge_spec (h : gmap Heap.ref (list Z)) numbers l pair idx :
  h !! numbers = Some l →
  Heap.merge h numbers pair idx
  = (<[numbers := replace_pairs l pair idx]> h, bind (scan_end l pair) (λ _, Return numbers)).
Proof.
  intros Hl. unfold Heap.merge. rewrite (lookup_total_correct _ _ _ Hl). by rewrite merge_scan.
Qed.

(** A corpus in which no text has two bytes makes [max] fail on the empty
    table of counts. *)
Lemma train_no_pairs self texts list_of_ids max_vocab :
  259 < max_vocab →
  BpeTokenizer.encode_texts texts = Return list_of_ids →
  Forall (λ ids, (length ids ≤ 1)%nat) list_of_ids →
  BpeTokenizer.train self texts max_vocab = (base_tokenizer, Raise ValueError).
Proof.
  intros Hmax Hids Hshort. rewrite train_unfold, bool_decide_eq_false_2, Hids by lia.
  destruct (Z.to_nat (max_vocab - 259)) as [|n] eqn:Hn; [lia|].
  cbn [BpeTokenizer.train_loop]. unfold BpeTokenizer.train_body.
  cbn [BpeTokenizer.list_of_ids].
  assert (Hnil : count_pairs list_of_ids = []).
  { apply count_pairs_nil_iff. clear Hids.
    induction Hshort as [|ids rest Hlen _ IH]; [done|].
    rewrite bind_cons, IH. apply adjacent_nil_iff in Hlen. by rewrite Hlen. }
  by rewrite Hnil.
Qed.

(** C1 (the code departs from it): [encode] is claimed never to raise on a
    tokenizer left by a completed training run.  Training on
    ["abc", "abc"] with target 260 completes and learns (97,98) -> 259;
    encoding "ab" with that tokenizer then raises [IndexError], because the
    replaced pair ends the list given to [merge]. *)
Theorem encode_raises_after_training self :
  let trained :=
    Tokenizer (<[259 := [97; 98]]> base_vocab) {[ (97, 98) := 259 ]}
              (Some 256) (Some 257) (Some 258) in
  BpeTokenizer.train self [[97; 98; 99]; [97; 98; 99]] 260 = (trained, Return ())
  ∧ valid_str [97; 98]
  ∧ BpeTokenizer.encode trained [97; 98] = Raise IndexError.
Proof.
  intros trained. split_and!.
  - rewrite train_unfold. vm_compute. reflexivity.
  - repeat constructor.
  - vm_compute. reflexivity.
Qed.

(** C2 (the code departs from it): training on an empty corpus, or on texts
    of at most one byte, with a target above 259 is claimed to end at once
    without raising.  The vocabulary does stay at its 259 entries and no
    merge is recorded, but the call raises [ValueError]: [max] is applied to
    an empty table of counts. *)
Theorem train_empty_corpus_raises self :
  BpeTokenizer.train self [] 260 = (base_tokenizer, Raise ValueError)
  ∧ BpeTokenizer.train self [[97]; []] 260 = (base_tokenizer, Raise ValueError)
  ∧ size (vocab base_tokenizer) = 259%nat
  ∧ merges base_tokenizer = ∅.
Proof.
  split_and!.
  - apply (train_no_pairs self [] []); [lia|done|constructor].
  - apply (train_no_pairs self [[97]; []] [[97]; []]); [lia|done|].
    repeat constructor.
  - apply base_vocab_size.
  - done.
Qed.

(** C3: [train(["aaab", "aaab"], 260)] counts (97,97) four times and (97,98)
    twice, selects (97,97), gives it id 259 with token [b"aa"], rewrites
    each sequence [97,97,97,98] to [259,97,98] in its single iteration, and
    ends with 260 entries and the merge table {(97,97): 259}. *)
Theorem train_aaab_scenario self :
  let texts := [[97; 97; 97; 98]; [97; 97; 97; 98]] in
  let trained :=
    Tokenizer (<[259 := [97; 97]]> base_vocab) {[ (97, 97) := 259 ]}
              (Some 256) (Some 257) (Some 258) in
  BpeTokenizer.encode_texts texts = Return texts
  ∧ count_pairs texts = [((97, 97), 4); ((97, 98), 2)]
  ∧ max_key (count_pairs texts) = Return (97, 97)
  ∧ merge [97; 97; 97; 98] (97, 97) 259 = ([259; 97; 98], Return ())
  ∧ BpeTokenizer.train_loop 1 (BpeTokenizer.TrainState base_tokenizer texts)
    = (BpeTokenizer.TrainState trained [[259; 97; 98]; [259; 97; 98]], Return ())
  ∧ BpeTokenizer.train_count self texts 260 = 1%nat
  ∧ BpeTokenizer.train self texts 260 = (trained, Return ())
  ∧ vocab trained !! 259 = Some [97; 97]
  ∧ size (vocab trained) = 260%nat
  ∧ merges trained = {[ (97, 97) := 259 ]}.
Proof.
  intros texts trained. split_and!; vm_compute; reflexivity.
Qed.

(** C4: after any run of [train], and after each of its iterations, every
    entry (left, right) -> new_id of the merge table has
    vocab[new_id] = vocab[left] + vocab[right] with left and right older
    ids than new_id; an iteration records at most one entry, and both ids
    of the pair are in the vocabulary at that moment. *)
Theorem train_merge_sound self texts max_vocab :
  merge_sound (BpeTokenizer.train self texts max_vocab).1
  ∧ ∀ list_of_ids k,
      BpeTokenizer.encode_texts texts = Return list_of_ids →
      let start := BpeTokenizer.TrainState base_tokenizer list_of_ids in
      merge_sound (BpeTokenizer.self (BpeTokenizer.train_loop k start).1)
      ∧ records_at_most_one
          (BpeTokenizer.self (BpeTokenizer.train_loop k start).1)
          (BpeTokenizer.self (BpeTokenizer.train_loop (S k) start).1).
Proof.
  split; [apply train_tok_inv|].
  intros list_of_ids k Hids start.
  assert (Hseq : seq_inv base_tokenizer list_of_ids)
    by by eapply base_seq_inv, encode_texts_bytes.
  split.
  - by apply (train_loop_inv k start base_tok_inv).
  - by apply (train_loop_step k start base_tok_inv).
Qed.

(** C5: with the untrained tokenizer (the 259 base entries, no merges),
    decoding the encoding of a valid Unicode string gives the string back. *)
Theorem decode_encode_untrained text :
  valid_str text →
  BpeTokenizer.new = (base_tokenizer, Return ())
  ∧ ∃ ids,
      BpeTokenizer.encode base_tokenizer text = Return ids
      ∧ ByteTokenizer.encode base_tokenizer text = Return ids
      ∧ BpeTokenizer.decode base_tokenizer ids = Return text.
Proof.
  intros (bs & Hbs & Hbytes & Hdec)%decode_encode. split; [apply bpe_new|].
  exists bs. unfold BpeTokenizer.encode, ByteTokenizer.encode. rewrite Hbs. cbn [bind].
  split_and!; [by apply encode_loop_no_merges|done|].
  unfold BpeTokenizer.decode, ByteTokenizer.decode. cbn [vocab base_tokenizer].
  rewrite join_base_vocab by done. cbn [bind]. by rewrite Hdec.
Qed.

Lemma decode_encode_untrained_witness :
  valid_str [97; 233; 8364; 128512]
  ∧ BpeTokenizer.new = (base_tokenizer, Return ())
  ∧ ∃ ids,
      BpeTokenizer.encode base_tokenizer [97; 233; 8364; 128512] = Return ids
      ∧ ByteTokenizer.encode base_tokenizer [97; 233; 8364; 128512] = Return ids
      ∧ BpeTokenizer.decode base_tokenizer ids = Return [97; 233; 8364; 128512].
Proof.
  assert (Hvalid : valid_str [97; 233; 8364; 128512]) by (repeat constructor).
  split; [exact Hvalid|]. apply (decode_encode_untrained [97; 233; 8364; 128512] Hvalid).
Defined.

(** One pass of the loop of [encode]: the pair looked up in the merge
    table, and applied when present, has the greatest adjacent-pair
    frequency in the current working sequence, whatever the order in which
    merges were learned; the pass leaves the loop normally exactly when the
    sequence has at most one id or the selected pair is not in the merge
    table, and otherwise ends as the call of [merge] does. *)
Lemma encode_body_selects_most_frequent self ids :
  (∀ fuel,
     BpeTokenizer.encode_loop (S fuel) self ids =
     bind (BpeTokenizer.encode_body self ids) (λ step,
       match step with
       | (Break, out) => Return out
       | (Continue, ids') => BpeTokenizer.encode_loop fuel self ids'
       end))
  ∧ ((length ids ≤ 1)%nat → BpeTokenizer.encode_body self ids = Return (Break, ids))
  ∧ ((1 < length ids)%nat →
     ∃ pair,
       max_key (count_pairs [ids]) = Return pair
       ∧ 0 < pair_freq pair [ids]
       ∧ (∀ q, pair_freq q [ids] ≤ pair_freq pair [ids])
       ∧ match merges self !! pair with
         | None => BpeTokenizer.encode_body self ids = Return (Break, ids)
         | Some idx =>
             BpeTokenizer.encode_body self ids =
             bind (merge ids pair idx).2 (λ _, Return (Continue, (merge ids pair idx).1))
         end)
  ∧ ((∃ out, BpeTokenizer.encode_body self ids = Return (Break, out))
     ↔ (length ids ≤ 1)%nat
       ∨ ∃ pair, max_key (count_pairs [ids]) = Return pair ∧ merges self !! pair = None)
  ∧ (let texts := [[97; 98; 120]; [97; 98; 121]; [97; 98; 122]; [99; 100; 120]; [99; 100; 121]] in
     ∃ trained,
       BpeTokenizer.train self texts 261 = (trained, Return ())
       ∧ merges trained = {[ (97, 98) := 259; (99, 100) := 260 ]}
       ∧ (97, 98) ∈ adjacent [97; 98; 99; 100; 99; 100; 120]
       ∧ max_key (count_pairs [[97; 98; 99; 100; 99; 100; 120]]) = Return (99, 100)
       ∧ BpeTokenizer.encode_body trained [97; 98; 99; 100; 99; 100; 120]
         = Return (Continue, [97; 98; 260; 260; 120])).
Proof.
  split_and!.
  - done.
  - apply encode_body_short.
  - intros Hlen. destruct (selected_pair ids Hlen) as (pair & Hmax & Hin & Hge).
    exists pair. split_and!; [done| |done|].
    + rewrite pair_freq_single. by apply occurrences_pos.
    + rewrite (encode_body_long self ids pair) by done.
      destruct (merges self !! pair) as [idx|]; [|done]. by rewrite merge_scan.
  - destruct (decide (length ids ≤ 1)%nat) as [Hshort|Hlong].
    { rewrite encode_body_short by done. split; eauto. }
    destruct (selected_pair ids) as (pair & Hmax & Hin & Hge); [lia|].
    rewrite (encode_body_long self ids pair) by (done || lia). split.
    + intros [out Hout]. right. exists pair. split; [done|].
      destruct (merges self !! pair) as [idx|]; [|done].
      by destruct (scan_end ids pair) as [[]| |].
    + intros [?|(pair' & Hmax' & Hnone)]; [lia|].
      rewrite Hmax in Hmax'. injection Hmax' as <-. rewrite Hnone. eauto.
  - intros texts. eexists. split_and!.
    + rewrite train_unfold. vm_compute. reflexivity.
    + vm_compute. reflexivity.
    + apply list_elem_of_here.
    + vm_compute. reflexivity.
    + vm_compute. reflexivity.
Qed.

(** C6 (the code departs from it): [encode] is claimed to stop exactly
    when the working sequence has at most one id or the selected most
    frequent pair is not in the merge table.  With the merge table
    {(97,98): 259} that training on ["abc", "abc"] leaves, [encode("ab")]
    starts from [97,98], selects (97,98), its most frequent pair, finds it
    in the table, and ends there by the [IndexError] of [merge]: it stops
    although the sequence has two ids and the selected pair is in the
    table. *)
Theorem encode_stops_with_pair_in_table self :
  let trained :=
    Tokenizer (<[259 := [97; 98]]> base_vocab) {[ (97, 98) := 259 ]}
              (Some 256) (Some 257) (Some 258) in
  BpeTokenizer.train self [[97; 98; 99]; [97; 98; 99]] 260 = (trained, Return ())
  ∧ valid_str [97; 98]
  ∧ ByteTokenizer.encode trained [97; 98] = Return [97; 98]
  ∧ (1 < length [97; 98])%nat
  ∧ max_key (count_pairs [[97; 98]]) = Return (97, 98)
  ∧ (∀ q, pair_freq q [[97; 98]] ≤ pair_freq (97, 98) [[97; 98]])
  ∧ merges trained !! (97, 98) = Some 259
  ∧ merge [97; 98] (97, 98) 259 = ([259], Raise IndexError)
  ∧ BpeTokenizer.encode trained [97; 98] = Raise IndexError.
Proof.
  intros trained.
  assert (Hmax : max_key (count_pairs [[97; 98]]) = Return (97, 98))
    by (vm_compute; reflexivity).
  split_and!.
  - rewrite train_unfold. vm_compute. reflexivity.
  - repeat constructor.
  - vm_compute. reflexivity.
  - simpl. lia.
  - exact Hmax.
  - by apply selected_training_pair.
  - vm_compute. reflexivity.
  - vm_compute. reflexivity.
  - vm_compute. reflexivity.
Qed.

(** C7 as stated is false below 259: a target of 100 leaves 259 entries,
    more than the target, and the bound target - 259 on the number of
    iterations is then negative. *)
Lemma train_size_exceeds_small_target :
  ¬ (Z.of_nat (size (vocab (BpeTokenizer.train base_tokenizer [] 100).1)) ≤ 100)
  ∧ ¬ (Z.of_nat (BpeTokenizer.train_count base_tokenizer [] 100) ≤ 100 - 259).
Proof.
  split.
  - rewrite train_unfold. cbn [bool_decide fst vocab base_tokenizer].
    rewrite bool_decide_eq_true_2 by lia. cbn [fst vocab base_tokenizer].
    rewrite base_vocab_size. lia.
  - lia.
Qed.

(** C7, amended: [train] enters its loop at most max(target - 259, 0)
    times; an iteration either records nothing or records one merge and
    adds exactly one entry to the vocabulary; the final vocabulary has at
    most max(target, 259) entries, and exactly 259 plus the number of
    recorded merges. *)
Theorem train_growth_bound self texts max_vocab :
  let trained := (BpeTokenizer.train self texts max_vocab).1 in
  Z.of_nat (BpeTokenizer.train_count self texts max_vocab) ≤ Z.max (max_vocab - 259) 0
  ∧ Z.of_nat (size (vocab trained)) ≤ Z.max max_vocab 259
  ∧ size (vocab trained) = (259 + size (merges trained))%nat
  ∧ ∀ list_of_ids k,
      BpeTokenizer.encode_texts texts = Return list_of_ids →
      let start := BpeTokenizer.TrainState base_tokenizer list_of_ids in
      let before := BpeTokenizer.self (BpeTokenizer.train_loop k start).1 in
      let after := BpeTokenizer.self (BpeTokenizer.train_loop (S k) start).1 in
      size (vocab before) = (259 + size (merges before))%nat
      ∧ (after = before
         ∨ size (merges after) = S (size (merges before))
           ∧ size (vocab after) = S (size (vocab before))).
Proof.
  intros trained. destruct (train_tok_inv self texts max_vocab) as ((_ & _ & Hsize) & Hle).
  split_and!; [|fold trained in Hle; lia|done|].
  - unfold BpeTokenizer.train_count. rewrite bpe_init_vocab. cbn [vocab base_tokenizer].
    rewrite base_vocab_size. change (Z.of_nat 259) with 259.
    case_bool_decide; [lia|].
    destruct (BpeTokenizer.encode_texts texts); [|lia..].
    pose proof (train_iterations_le (Z.to_nat (max_vocab - 259))
                  (BpeTokenizer.TrainState base_tokenizer a)). lia.
  - intros list_of_ids k Hids start before after.
    assert (Hseq : seq_inv base_tokenizer list_of_ids)
      by by eapply base_seq_inv, encode_texts_bytes.
    destruct (train_loop_inv k start base_tok_inv Hseq) as (Htok & _ & _).
    pose proof (train_loop_step k start base_tok_inv Hseq) as Hstep.
    destruct (records_size _ _ Htok Hstep) as (_ & _ & Hcases).
    split; [apply Htok|].
    destruct Hcases as [Hsame|[Hv Hm]]; [left; exact Hsame|right; split; assumption].
Qed.

(** C8: with a target of at most 259, [train] returns normally and leaves
    the freshly reset state: 259 entries, ids 0–255 mapped to their own
    byte, ids 256, 257, 258 mapped to the pad, beginning-of-sequence and
    end-of-sequence tokens, and an empty merge table. *)
Theorem train_target_at_most_259 self texts max_vocab :
  max_vocab ≤ 259 →
  ∃ tk,
    BpeTokenizer.train self texts max_vocab = (tk, Return ())
    ∧ (tk, Return ()) = BpeTokenizer.init_vocab self
    ∧ size (vocab tk) = 259%nat
    ∧ (∀ idx, 0 ≤ idx < 256 → vocab tk !! idx = Some [idx])
    ∧ vocab tk !! 256 = Some pad_token
    ∧ vocab tk !! 257 = Some bos_token
    ∧ vocab tk !! 258 = Some eos_token
    ∧ pad_token_id tk = Some 256
    ∧ bos_token_id tk = Some 257
    ∧ eos_token_id tk = Some 258
    ∧ merges tk = ∅.
Proof.
  intros Hmax. exists base_tokenizer.
  rewrite train_unfold, bool_decide_eq_true_2, bpe_init_vocab by done.
  split_and!;
    [reflexivity | reflexivity | apply base_vocab_size | apply base_vocab_bytes
    | vm_compute; reflexivity ..].
Qed.

Lemma train_target_at_most_259_witness :
  100 ≤ 259 ∧
  ∃ tk,
    BpeTokenizer.train base_tokenizer [[97; 98]; [97; 98]] 100 = (tk, Return ())
    ∧ (tk, Return ()) = BpeTokenizer.init_vocab base_tokenizer
    ∧ size (vocab tk) = 259%nat
    ∧ (∀ idx, 0 ≤ idx < 256 → vocab tk !! idx = Some [idx])
    ∧ vocab tk !! 256 = Some pad_token
    ∧ vocab tk !! 257 = Some bos_token
    ∧ vocab tk !! 258 = Some eos_token
    ∧ pad_token_id tk = Some 256
    ∧ bos_token_id tk = Some 257
    ∧ eos_token_id tk = Some 258
    ∧ merges tk = ∅.
Proof.
  split; [lia|].
  apply (train_target_at_most_259 base_tokenizer [[97; 98]; [97; 98]] 100). lia.
Defined.

(** C9 (the code departs from it): [merge] is claimed to leave the list
    passed as [numbers] unchanged and to return a separate value.  It
    writes into that list and returns the same object: after
    [merge(numbers, (97,98), 259)] on the list [97,98,99] the object
    [numbers] holds [259,99] and is the value returned. *)
Theorem merge_writes_into_argument :
  let numbers : Heap.ref := 1%positive in
  let h : gmap Heap.ref (list Z) := {[ numbers := [97; 98; 99] ]} in
  Heap.merge h numbers (97, 98) 259 = ({[ numbers := [259; 99] ]}, Return numbers)
  ∧ (Heap.merge h numbers (97, 98) 259).1 !! numbers ≠ h !! numbers.
Proof.
  intros numbers h. split.
  - unfold h. rewrite (heap_merge_spec _ numbers [97; 98; 99]) by apply lookup_singleton_eq.
    by rewrite insert_singleton_eq.
  - unfold h. rewrite (heap_merge_spec _ numbers [97; 98; 99]) by apply lookup_singleton_eq.
    cbn [fst]. rewrite lookup_insert_eq, lookup_singleton_eq. done.
Qed.

(** C10: [merge] always carries out the left-to-right rewrite of
    non-overlapping occurrences in the list, and then raises [IndexError]
    exactly when the list is empty or the rightmost replaced occurrence
    ends at the last index; otherwise it returns the rewritten list.
    [merge([97, 98], (97, 98), 259)] raises. *)
Theorem merge_raises_or_rewrites numbers pair idx :
  merge numbers pair idx =
    (replace_pairs numbers pair idx,
     if bool_decide (numbers = []) || ends_replaced numbers pair
     then Raise IndexError else Return ())
  ∧ merge [97; 98] (97, 98) 259 = ([259], Raise IndexError)
  ∧ merge [] pair idx = ([], Raise IndexError).
Proof.
  split_and!; [|done..]. by rewrite merge_scan, scan_end_ends_replaced.
Qed.

(** ** More on [merge] *)

Section merge_more.
Implicit Types (numbers : list Z) (pair : Z * Z) (idx : Z).

Lemma replace_pairs_absent numbers pair idx :
  pair ∉ adjacent numbers → replace_pairs numbers pair idx = numbers.
Proof.
  induction numbers as [|a|a b t IHt IHbt] using scan_ind; [done..|].
  rewrite adjacent_cons2, not_elem_of_cons. intros [Hne Hnin].
  rewrite replace_pairs_cons2, bool_decide_eq_false_2 by done.
  by rewrite IHbt.
Qed.

Lemma scan_end_absent numbers pair :
  numbers ≠ [] → pair ∉ adjacent numbers → scan_end numbers pair = Return ().
Proof.
  induction numbers as [|a|a b t IHt IHbt] using scan_ind; [done..|].
  intros _. rewrite adjacent_cons2, not_elem_of_cons. intros [Hne Hnin].
  rewrite scan_end_cons2, bool_decide_eq_false_2 by done. by apply IHbt.
Qed.

Lemma replaced_from_length i numbers pair idx :
  (length (replace_pairs numbers pair idx) + length (replaced_from i numbers pair)
   = length numbers)%nat.
Proof.
  revert i. induction numbers as [|a|a b t IHt IHbt] using scan_ind; intros i;
    [done..|].
  rewrite replace_pairs_cons2, replaced_from_cons2. destruct (bool_decide _).
  - specialize (IHt (S (S i))). simpl in *. lia.
  - specialize (IHbt (S i)). simpl in *. lia.
Qed.

Lemma replaced_from_occurrence i numbers pair p :
  p ∈ replaced_from i numbers pair →
  (i ≤ p)%nat ∧ numbers !! (p - i)%nat = Some pair.1
  ∧ numbers !! S (p - i)%nat = Some pair.2.
Proof.
  revert i. induction numbers as [|a|a b t IHt IHbt] using scan_ind; intros i;
    [by intros ?%elem_of_nil..|].
  rewrite replaced_from_cons2. destruct (decide ((a, b) = pair)) as [<-|Hne].
  - rewrite bool_decide_eq_true_2 by done.
    intros [->|Hin]%elem_of_cons.
    + rewrite Nat.sub_diag. split_and!; [lia|done..].
    + apply IHt in Hin as (Hle & H1 & H2).
      replace (p - i)%nat with (S (S (p - S (S i)))) by lia. split_and!; [lia|done..].
  - rewrite bool_decide_eq_false_2 by done. intros Hin.
    apply IHbt in Hin as (Hle & H1 & H2).
    replace (p - i)%nat with (S (p - S i)) by lia. split; [lia|done].
Qed.

Lemma replace_pairs_nonempty numbers pair idx :
  numbers ≠ [] → replace_pairs numbers pair idx ≠ [].
Proof.
  destruct numbers as [|a [|b t]]; [done..|]. intros _.
  rewrite replace_pairs_cons2. by destruct (bool_decide _).
Qed.

(** When [merge] returns, a list of two or more ids keeps at least two. *)
Lemma replace_pairs_keeps_two numbers pair idx :
  scan_end numbers pair = Return () → (2 ≤ length numbers)%nat →
  (2 ≤ length (replace_pairs numbers pair idx))%nat.
Proof.
  induction numbers as [|a|a b t IHt IHbt] using scan_ind; [simpl; lia..|].
  rewrite scan_end_cons2, replace_pairs_cons2. intros Hend _.
  destruct (bool_decide _).
  - destruct t as [|c t]; [done|].
    pose proof (replace_pairs_nonempty (c :: t) pair idx).
    destruct (replace_pairs (c :: t) pair idx); [naive_solver|simpl; lia].
  - pose proof (replace_pairs_nonempty (b :: t) pair idx).
    destruct (replace_pairs (b :: t) pair idx); [naive_solver|simpl; lia].
Qed.

(** Tokens are kept: when the token of [idx] is the concatenation of the
    tokens of the pair, the rewritten list joins to the same bytes. *)
Lemma join_replace_pairs (v : gmap Z (list Z)) numbers pair idx t1 t2 bs :
  v !! pair.1 = Some t1 → v !! pair.2 = Some t2 → v !! idx = Some (t1 ++ t2) →
  ByteTokenizer.join_vocab v numbers = Return bs →
  ByteTokenizer.join_vocab v (replace_pairs numbers pair idx) = Return bs.
Proof.
  intros H1 H2 Hidx. revert bs.
  induction numbers as [|a|a b t IHt IHbt] using scan_ind; intros bs; [done..|].
  rewrite replace_pairs_cons2. destruct (decide ((a, b) = pair)) as [<-|Hne].
  - rewrite bool_decide_eq_true_2 by done. cbn [ByteTokenizer.join_vocab fst snd] in *.
    unfold subscript. rewrite H1, H2, Hidx. cbn [bind].
    destruct (ByteTokenizer.join_vocab v t) as [rest| |] eqn:Ht; [|done..].
    rewrite (IHt rest eq_refl). cbn [bind]. intros [= <-]. by rewrite (assoc_L (++)).
  - rewrite bool_decide_eq_false_2 by done.
    change (ByteTokenizer.join_vocab v (a :: b :: t)) with
      (bind (subscript v a) (λ token,
         bind (ByteTokenizer.join_vocab v (b :: t)) (λ rest, Return (token ++ rest)))).
    change (ByteTokenizer.join_vocab v (a :: replace_pairs (b :: t) pair idx)) with
      (bind (subscript v a) (λ token,
         bind (ByteTokenizer.join_vocab v (replace_pairs (b :: t) pair idx))
              (λ rest, Return (token ++ rest)))).
    destruct (subscript v a) as [ta| |]; [|done..]. cbn [bind].
    destruct (ByteTokenizer.join_vocab v (b :: t)) as [rest| |] eqn:Hbt; [|done..].
    by rewrite (IHbt rest eq_refl).
Qed.
End merge_more.

(** ** The order of the counted pairs and the choice of [max] *)

Section order_facts.
Context {A : Type} `{EqDecision A}.
Implicit Types (l seen : list A) (x : A).

Lemma elem_of_see seen x y : y ∈ see seen x ↔ y ∈ seen ∨ y = x.
Proof.
  unfold see. case_bool_decide as Hx.
  - split; [by left|]. intros [?| ->]; done.
  - rewrite elem_of_app, list_elem_of_singleton. done.
Qed.

Lemma elem_of_foldl_see seen l y : y ∈ foldl see seen l ↔ y ∈ seen ∨ y ∈ l.
Proof.
  revert seen. induction l as [|x l IH]; intros seen; simpl.
  - rewrite elem_of_nil. tauto.
  - rewrite IH, elem_of_see, elem_of_cons. tauto.
Qed.

Lemma elem_of_distinct l y : y ∈ distinct l ↔ y ∈ l.
Proof. unfold distinct. rewrite elem_of_foldl_see, elem_of_nil. tauto. Qed.

Lemma distinct_snoc l x : distinct (l ++ [x]) = see (distinct l) x.
Proof. unfold distinct. by rewrite foldl_app. Qed.

(** What stands before [x] in [distinct l] covers everything that
    stands before the first occurrence of [x] in [l]. *)
Lemma distinct_split l k1 x k2 :
  distinct l = k1 ++ x :: k2 →
  ∃ before after,
    l = before ++ x :: after ∧ (x ∉ before) ∧ (∀ y, y ∈ before → y ∈ k1).
Proof.
  revert k2. induction l as [|z l IH] using rev_ind; intros k2 Hd.
  { by destruct k1. }
  rewrite distinct_snoc in Hd. unfold see in Hd. case_bool_decide as Hz.
  - destruct (IH _ Hd) as (before & after & -> & Hnin & Hsub).
    exists before, (after ++ [z]). by rewrite <-(assoc_L (++)).
  - destruct k2 as [|w k2 _] using rev_ind.
    + apply (app_inj_tail (distinct l) k1) in Hd as [Hk1 ->].
      exists l, []. split_and!; [done| |].
      * by rewrite <-elem_of_distinct.
      * intros y Hy. by rewrite <-Hk1, elem_of_distinct.
    + rewrite (app_comm_cons k2), (assoc_L (++)) in Hd.
      apply app_inj_tail in Hd as [Hd _].
      destruct (IH _ Hd) as (before & after & -> & Hnin & Hsub).
      exists before, (after ++ [z]). by rewrite <-(assoc_L (++)).
Qed.
End order_facts.

Section choice_facts.
Implicit Types (Dict : list (Z * Z * Z)) (q k : Z * Z) (data : list (list Z)).

(** [max] returns the first of the entries whose value is greatest. *)
Lemma max_from_first {K : Type} (pre mid d : list (K * Z)) (best : K * Z) :
  (∀ kv, kv ∈ pre → kv.2 < best.2) → (∀ kv, kv ∈ mid → kv.2 ≤ best.2) →
  ∃ pre' suf,
    pre ++ best :: mid ++ d = pre' ++ max_from best d :: suf
    ∧ (∀ kv, kv ∈ pre' → kv.2 < (max_from best d).2)
    ∧ (∀ kv, kv ∈ suf → kv.2 ≤ (max_from best d).2).
Proof.
  revert pre mid best. induction d as [|kv d IH]; intros pre mid best Hpre Hmid.
  { exists pre, mid. by rewrite app_nil_r. }
  cbn [max_from]. case_bool_decide as Hlt.
  - destruct (IH (pre ++ best :: mid) [] kv) as (pre' & suf & Heq & ? & ?).
    + intros x [Hx|[->|Hx]%elem_of_cons]%elem_of_app.
      * apply Hpre in Hx. lia.
      * done.
      * apply Hmid in Hx. lia.
    + by intros x ?%elem_of_nil.
    + exists pre', suf. split; [|done]. rewrite <-Heq. by rewrite <-(assoc_L (++)).
  - destruct (IH pre (mid ++ [kv]) best) as (pre' & suf & Heq & ? & ?); [done| |].
    + intros x [?| ->%list_elem_of_singleton]%elem_of_app; [by apply Hmid|lia].
    + exists pre', suf. split; [|done]. rewrite <-Heq. by rewrite <-(assoc_L (++)).
Qed.

Lemma max_key_first {K : Type} (cnt : list (K * Z)) (key : K) :
  max_key cnt = Return key →
  ∃ pre v suf,
    cnt = pre ++ (key, v) :: suf
    ∧ (∀ kv, kv ∈ pre → kv.2 < v) ∧ (∀ kv, kv ∈ suf → kv.2 ≤ v).
Proof.
  destruct cnt as [|kv d]; [done|]. intros [= <-].
  destruct (max_from_first [] [] d kv) as (pre & suf & Heq & ? & ?);
    [by intros x ?%elem_of_nil..|].
  exists pre, (max_from kv d).2, suf. by rewrite <-surjective_pairing.
Qed.

Lemma count_incr_keys Dict k : (count_incr Dict k).*1 = see Dict.*1 k.
Proof. unfold count_incr. destruct (dict_get k Dict); apply dict_set_keys. Qed.

Lemma count_keys ps Dict : (foldl count_incr Dict ps).*1 = foldl see Dict.*1 ps.
Proof.
  revert Dict. induction ps as [|k ps IH]; intros Dict; simpl; [done|].
  by rewrite IH, count_incr_keys.
Qed.

Lemma count_pairs_keys data : (count_pairs data).*1 = distinct (data ≫= adjacent).
Proof. by rewrite count_pairs_adjacent, count_keys. Qed.
End choice_facts.

(** ** More on training *)

Section train_more.
Implicit Types (tk : tokenizer) (st : BpeTokenizer.train_state)
  (list_of_ids : list (list Z)) (pair q : Z * Z).

Lemma merge_each_return list_of_ids pair idx :
  (BpeTokenizer.merge_each list_of_ids pair idx).2 = Return () →
  (BpeTokenizer.merge_each list_of_ids pair idx).1
    = (λ ids, replace_pairs ids pair idx) <$> list_of_ids
  ∧ Forall (λ ids, scan_end ids pair = Return ()) list_of_ids.
Proof.
  induction list_of_ids as [|ids rest IH]; [by split|].
  cbn [BpeTokenizer.merge_each]. rewrite merge_scan.
  destruct (scan_end ids pair) as [[]|e|] eqn:Hend; [|done..].
  destruct (BpeTokenizer.merge_each rest pair idx) as [rest' r]. cbn [fst snd] in *.
  intros Hr. destruct (IH Hr) as [-> Hall]. split; [done|by constructor].
Qed.

Lemma merge_each_outcome list_of_ids pair idx :
  (BpeTokenizer.merge_each list_of_ids pair idx).2 = Return ()
  ∨ (BpeTokenizer.merge_each list_of_ids pair idx).2 = Raise IndexError.
Proof.
  destruct (merge_each_cases list_of_ids pair idx) as [-> | ->]; auto.
Qed.

(** What an iteration that goes on to the next one has done. *)
Lemma train_body_continue st st' :
  BpeTokenizer.train_body st = (st', Return Continue) →
  ∃ pair t1 t2,
    max_key (count_pairs (BpeTokenizer.list_of_ids st)) = Return pair
    ∧ pair_freq pair (BpeTokenizer.list_of_ids st) ≠ 1
    ∧ vocab (BpeTokenizer.self st) !! pair.1 = Some t1
    ∧ vocab (BpeTokenizer.self st) !! pair.2 = Some t2
    ∧ st' = BpeTokenizer.TrainState
              (record_merge (BpeTokenizer.self st) pair (t1 ++ t2))
              ((λ ids, replace_pairs ids pair
                         (Z.of_nat (size (vocab (BpeTokenizer.self st)))))
                 <$> BpeTokenizer.list_of_ids st)
    ∧ Forall (λ ids, scan_end ids pair = Return ()) (BpeTokenizer.list_of_ids st).
Proof.
  destruct st as [tk list_of_ids]. unfold BpeTokenizer.train_body.
  cbn [BpeTokenizer.self BpeTokenizer.list_of_ids].
  destruct (max_key (count_pairs list_of_ids)) as [pair|e|] eqn:Hmax; [|done..].
  destruct (selected_training_pair _ _ Hmax) as (Hget & _). cbn zeta. rewrite Hget.
  destruct (decide (pair_freq pair list_of_ids = 1)) as [H1|H1].
  { by rewrite bool_decide_eq_true_2. }
  rewrite bool_decide_eq_false_2 by done. unfold subscript.
  destruct (vocab tk !! pair.1) as [t1|] eqn:Ht1; [|done].
  destruct (vocab tk !! pair.2) as [t2|] eqn:Ht2; [|done].
  pose proof (merge_each_return list_of_ids pair (Z.of_nat (size (vocab tk)))) as Hret.
  destruct (BpeTokenizer.merge_each _ _ _) as [ids' r]. cbn [fst snd] in Hret.
  destruct r as [[]|e|]; [|done..]. destruct (Hret eq_refl) as [-> Hall].
  intros [= <-]. exists pair, t1, t2. by split_and!.
Qed.

(** The loop is left by [break] only when no pair occurs twice. *)
Lemma train_body_break st st' :
  BpeTokenizer.train_body st = (st', Return Break) →
  st' = st ∧ ∀ q, pair_freq q (BpeTokenizer.list_of_ids st) ≤ 1.
Proof.
  destruct st as [tk list_of_ids]. unfold BpeTokenizer.train_body.
  cbn [BpeTokenizer.self BpeTokenizer.list_of_ids].
  destruct (max_key (count_pairs list_of_ids)) as [pair|e|] eqn:Hmax; [|done..].
  destruct (selected_training_pair _ _ Hmax) as (Hget & _ & Hge & _). cbn zeta.
  rewrite Hget.
  destruct (decide (pair_freq pair list_of_ids = 1)) as [H1|H1].
  { rewrite bool_decide_eq_true_2 by done. intros [= <-]. split; [done|].
    intros q. rewrite <-H1. apply Hge. }
  rewrite bool_decide_eq_false_2 by done. unfold subscript.
  destruct (vocab tk !! pair.1) as [t1|]; [|done].
  destruct (vocab tk !! pair.2) as [t2|]; [|done].
  destruct (BpeTokenizer.merge_each _ _ _) as [ids' r]. by destruct r as [[]|e|].
Qed.

(** [ValueError] can only come from [max] on an empty table of counts. *)
Lemma train_body_value_error st st' :
  BpeTokenizer.train_body st = (st', Raise ValueError) →
  count_pairs (BpeTokenizer.list_of_ids st) = [].
Proof.
  destruct st as [tk list_of_ids]. unfold BpeTokenizer.train_body.
  cbn [BpeTokenizer.self BpeTokenizer.list_of_ids].
  destruct (max_key (count_pairs list_of_ids)) as [pair|e|] eqn:Hmax.
  - destruct (selected_training_pair _ _ Hmax) as (Hget & _). cbn zeta. rewrite Hget.
    case_bool_decide; [done|]. unfold subscript.
    destruct (vocab tk !! pair.1) as [t1|]; [|done].
    destruct (vocab tk !! pair.2) as [t2|]; [|done].
    pose proof (merge_each_outcome list_of_ids pair (Z.of_nat (size (vocab tk)))) as Hout.
    destruct (BpeTokenizer.merge_each _ _ _) as [ids' r]. cbn [snd] in Hout.
    by destruct Hout as [-> | ->].
  - by apply max_key_nil_inv in Hmax as [? _].
  - by destruct (count_pairs list_of_ids).
Qed.

Lemma long_counted list_of_ids :
  Exists (λ ids, (2 ≤ length ids)%nat) list_of_ids → count_pairs list_of_ids ≠ [].
Proof.
  rewrite count_pairs_nil_iff. induction 1 as [ids rest Hlen|ids rest _ IH];
    rewrite bind_cons.
  - destruct ids as [|a [|b t]]; [simpl in Hlen; lia..|]. by rewrite adjacent_cons2.
  - intros [_ ?]%app_eq_nil. done.
Qed.

(** Once some text has two bytes, training does not fail in [max]. *)
Lemma train_loop_no_value_error n st :
  Exists (λ ids, (2 ≤ length ids)%nat) (BpeTokenizer.list_of_ids st) →
  (BpeTokenizer.train_loop n st).2 ≠ Raise ValueError.
Proof.
  revert st. induction n as [|n IH]; intros st Hlong; [done|].
  cbn [BpeTokenizer.train_loop].
  destruct (BpeTokenizer.train_body st) as [st' r] eqn:Hbody.
  destruct r as [[]|e|]; cbn [snd bind]; [|done| |done].
  - apply IH. apply train_body_continue in Hbody
      as (pair & t1 & t2 & _ & _ & _ & _ & -> & Hall).
    cbn [BpeTokenizer.list_of_ids]. rewrite Forall_forall in Hall.
    apply Exists_exists in Hlong as (ids & Hin & Hlen). apply Exists_exists.
    exists (replace_pairs ids pair (Z.of_nat (size (vocab (BpeTokenizer.self st))))).
    split; [|apply replace_pairs_keeps_two; auto].
    by apply (list_elem_of_fmap_2
                (λ l, replace_pairs l pair (Z.of_nat (size (vocab (BpeTokenizer.self st)))))).
  - intros [= ->]. apply train_body_value_error in Hbody.
    by apply long_counted in Hlong.
Qed.

(** A property that recording a merge keeps holds throughout training. *)
Lemma train_loop_keeps (P : tokenizer → Prop) k st :
  (∀ tk tk', tok_inv tk → P tk → records_at_most_one tk tk' → P tk') →
  tok_inv (BpeTokenizer.self st) →
  seq_inv (BpeTokenizer.self st) (BpeTokenizer.list_of_ids st) →
  P (BpeTokenizer.self st) →
  P (BpeTokenizer.self (BpeTokenizer.train_loop k st).1).
Proof.
  intros Hstep Htok Hseq HP. induction k as [|k IH]; [done|].
  apply (Hstep (BpeTokenizer.self (BpeTokenizer.train_loop k st).1)).
  - by apply train_loop_inv.
  - exact IH.
  - by apply train_loop_step.
Qed.

Lemma train_keeps (P : tokenizer → Prop) self texts max_vocab :
  (∀ tk tk', tok_inv tk → P tk → records_at_most_one tk tk' → P tk') →
  P base_tokenizer →
  P (BpeTokenizer.train self texts max_vocab).1.
Proof.
  intros Hstep Hbase. rewrite train_unfold. destruct (bool_decide _); [done|].
  destruct (BpeTokenizer.encode_texts texts) as [ids|e|] eqn:Hids; [|done..].
  cbn [fst]. apply train_loop_keeps; [done|apply base_tok_inv| |done].
  by eapply base_seq_inv, encode_texts_bytes.
Qed.

Lemma base_kept_step tk tk' :
  tok_inv tk → base_kept tk → records_at_most_one tk tk' → base_kept tk'.
Proof.
  intros (Hd & _) Hk [->|(pair & bl & br & _ & _ & _ & ->)]; [done|].
  destruct Hk as (Hsub & ? & ? & ?). split_and!; [|done..].
  cbn [record_merge vocab]. etrans; [exact Hsub|].
  apply insert_subseteq. by apply dense_fresh.
Qed.

Lemma base_kept_base : base_kept base_tokenizer.
Proof. by split_and!. Qed.

Lemma merge_ids_dense_step tk tk' :
  tok_inv tk → merge_ids_dense tk → records_at_most_one tk tk' → merge_ids_dense tk'.
Proof.
  intros (Hd & _ & Hsize) [Hran Hinj] [->|(pair & bl & br & _ & _ & Hnew & ->)];
    [done|].
  pose proof (dense_fresh _ Hd) as Hfresh.
  assert (Hold : ∀ q n, merges tk !! q = Some n → n < Z.of_nat (size (vocab tk))).
  { intros q n Hq. apply Hran. eauto. }
  split; cbn [record_merge vocab merges].
  - intros n. rewrite map_size_insert_None by done. split.
    + intros [q Hq]. destruct (decide (pair = q)) as [->|Hne].
      * rewrite lookup_insert_eq in Hq. injection Hq as <-. lia.
      * rewrite lookup_insert_ne in Hq by done.
        assert (259 ≤ n < Z.of_nat (size (vocab tk))) by (apply Hran; eauto). lia.
    + intros Hn. destruct (decide (n = Z.of_nat (size (vocab tk)))) as [->|Hne].
      * exists pair. apply lookup_insert_eq.
      * destruct (proj2 (Hran n)) as [q Hq]; [lia|]. exists q.
        rewrite lookup_insert_ne; [done|]. intros <-. by rewrite Hnew in Hq.
  - intros p q n Hp Hq.
    destruct (decide (pair = p)) as [Hp'|Hp']; destruct (decide (pair = q)) as [Hq'|Hq'].
    + congruence.
    + subst p. rewrite lookup_insert_eq in Hp. injection Hp as <-.
      rewrite lookup_insert_ne in Hq by done. apply Hold in Hq. lia.
    + subst q. rewrite lookup_insert_eq in Hq. injection Hq as <-.
      rewrite lookup_insert_ne in Hp by done. apply Hold in Hp. lia.
    + rewrite lookup_insert_ne in Hp, Hq by done. by eapply Hinj.
Qed.

Lemma merge_ids_dense_base : merge_ids_dense base_tokenizer.
Proof.
  split; cbn [base_tokenizer vocab merges].
  - intros n. rewrite base_vocab_size. split; [|lia].
    intros [q Hq]. by rewrite lookup_empty in Hq.
  - intros p q n Hp. by rewrite lookup_empty in Hp.
Qed.
End train_more.

(** ** More on [encode] and [decode] *)

Section encode_more.
Implicit Types (tk : tokenizer) (ids : list Z).

(** The three ways in which one pass of the loop of [encode] can end. *)
Lemma encode_body_cases tk ids :
  BpeTokenizer.encode_body tk ids = Return (Break, ids)
    ∧ ((length ids ≤ 1)%nat
       ∨ ∃ pair, max_key (count_pairs [ids]) = Return pair ∧ merges tk !! pair = None)
  ∨ (∃ pair idx,
       pair ∈ adjacent ids ∧ merges tk !! pair = Some idx
       ∧ BpeTokenizer.encode_body tk ids
         = Return (Continue, replace_pairs ids pair idx))
  ∨ BpeTokenizer.encode_body tk ids = Raise IndexError.
Proof.
  destruct (decide (length ids ≤ 1)%nat) as [Hshort|Hlong].
  { left. split; [by apply encode_body_short|by left]. }
  destruct (selected_pair ids) as (pair & Hmax & Hin & _); [lia|].
  rewrite (encode_body_long tk ids pair) by (done || lia).
  destruct (merges tk !! pair) as [idx|] eqn:Hm.
  - right. destruct (scan_end_cases ids pair) as [-> | ->]; [left|by right].
    exists pair, idx. by rewrite Hm.
  - left. split; [done|]. right. eauto.
Qed.

(** A property of the working sequence that every applied merge keeps
    holds of the result, which in addition is where the loop stops. *)
Lemma encode_loop_keeps (Q : list Z → Prop) tk fuel ids out :
  (∀ ids pair idx,
     Q ids → pair ∈ adjacent ids → merges tk !! pair = Some idx →
     Q (replace_pairs ids pair idx)) →
  Q ids →
  BpeTokenizer.encode_loop fuel tk ids = Return out →
  Q out
  ∧ (length out ≤ length ids)%nat
  ∧ ((length out ≤ 1)%nat
     ∨ ∃ pair, max_key (count_pairs [out]) = Return pair ∧ merges tk !! pair = None).
Proof.
  intros Hstep. revert ids. induction fuel as [|fuel IH]; intros ids HQ;
    cbn [BpeTokenizer.encode_loop];
    destruct (encode_body_cases tk ids)
      as [[-> Hstop]|[(pair & idx & Hin & Hm & ->)| ->]]; cbn [bind]; try done.
  - intros [= <-]. by split_and!.
  - intros [= <-]. by split_and!.
  - intros Hout. destruct (IH _ (Hstep _ _ _ HQ Hin Hm) Hout) as (? & ? & ?).
    pose proof (replace_pairs_length ids pair idx). split_and!; [done|lia|done].
Qed.

Lemma encode_loop_outcome tk fuel ids :
  (length ids ≤ S fuel)%nat →
  (∃ out, BpeTokenizer.encode_loop fuel tk ids = Return out)
  ∨ BpeTokenizer.encode_loop fuel tk ids = Raise IndexError.
Proof.
  revert ids. induction fuel as [|fuel IH]; intros ids Hlen;
    cbn [BpeTokenizer.encode_loop];
    destruct (encode_body_cases tk ids)
      as [[-> Hstop]|[(pair & idx & Hin & Hm & ->)| ->]]; cbn [bind]; eauto.
  - pose proof (replace_pairs_shorter ids pair idx Hin).
    destruct ids as [|a [|b t]]; simpl in *; try lia; by apply elem_of_nil in Hin.
  - apply IH. pose proof (replace_pairs_shorter ids pair idx Hin). lia.
Qed.

Lemma join_vocab_bytes (v : gmap Z (list Z)) bs :
  base_vocab ⊆ v → is_bytes bs → ByteTokenizer.join_vocab v bs = Return bs.
Proof.
  intros Hsub. induction 1 as [|b bs Hb _ IH]; [done|].
  cbn [ByteTokenizer.join_vocab]. unfold subscript.
  rewrite (lookup_weaken _ _ _ _ (base_vocab_bytes b Hb) Hsub). cbn [bind].
  by rewrite IH.
Qed.

(** [decode]: the tokens of the ids joined and decoded, or [KeyError] as
    soon as an id is not in the vocabulary. *)
Lemma join_vocab_spec (v : gmap Z (list Z)) ids :
  ByteTokenizer.join_vocab v ids =
  if bool_decide (Forall (λ idx, is_Some (v !! idx)) ids)
  then Return (ids ≫= λ idx, default [] (v !! idx))
  else Raise KeyError.
Proof.
  induction ids as [|idx ids IH]; [done|].
  cbn [ByteTokenizer.join_vocab]. unfold subscript. rewrite IH, bind_cons.
  destruct (v !! idx) as [token|] eqn:Hidx; cbn [bind].
  - destruct (decide (Forall (λ idx, is_Some (v !! idx)) ids)) as [Hall|Hall].
    + rewrite !bool_decide_eq_true_2; [done| |done]. constructor; [by rewrite Hidx|done].
    + rewrite !bool_decide_eq_false_2; [done| |done]. by intros [_ ?]%Forall_cons.
  - rewrite bool_decide_eq_false_2; [done|].
    intros [[? Hs] _]%Forall_cons. by rewrite Hidx in Hs.
Qed.
End encode_more.

(** ** [MyDataset] *)

Section dataset_facts.
Implicit Types (cls : tokenizer_class) (tk : tokenizer) (texts : list (list Z))
  (data : list (list MyDataset.element)).

Lemma fill_return cls tk texts data data' :
  MyDataset.fill cls tk texts data = Return data' →
  ∃ rows,
    data' = data ++ rows
    ∧ Forall2 (λ text row, ∃ ids, encode_method cls tk text = Return ids
                                   ∧ row = row_of ids) texts rows.
Proof.
  revert data. induction texts as [|text texts IH]; intros data;
    cbn [MyDataset.fill].
  - intros [= <-]. exists []. by rewrite app_nil_r.
  - destruct (encode_method cls tk text) as [ids| |] eqn:Hids; [|done..]. cbn [bind].
    intros (rows & -> & Hrows)%IH.
    exists (row_of ids :: rows). split; [by rewrite <-(assoc_L (++))|].
    constructor; [eauto|done].
Qed.

Lemma fill_raise cls tk texts data e :
  MyDataset.fill cls tk texts data = Raise e →
  ∃ text, text ∈ texts ∧ encode_method cls tk text = Raise e.
Proof.
  revert data. induction texts as [|text texts IH]; intros data;
    cbn [MyDataset.fill]; [done|].
  destruct (encode_method cls tk text) as [ids| |] eqn:Hids; cbn [bind].
  - intros (text' & ? & ?)%IH. exists text'. split; [by apply list_elem_of_further|done].
  - intros [= <-]. exists text. split; [apply list_elem_of_here|done].
  - done.
Qed.

Lemma list_item_spec {A : Type} (l : list A) (idx : Z) :
  list_item l idx =
  if bool_decide (- Z.of_nat (length l) ≤ idx < Z.of_nat (length l))
  then match l !! Z.to_nat (idx mod Z.of_nat (length l)) with
       | Some x => Return x
       | None => Raise IndexError
       end
  else Raise IndexError.
Proof.
  unfold list_item. destruct (decide (idx < 0)) as [Hneg|Hpos].
  - rewrite (bool_decide_eq_true_2 (idx < 0)) by done.
    destruct (decide (idx + Z.of_nat (length l) < 0)) as [Hlow|Hin].
    + rewrite bool_decide_eq_true_2 by done. by rewrite bool_decide_eq_false_2 by lia.
    + rewrite bool_decide_eq_false_2 by done. rewrite bool_decide_eq_true_2 by lia.
      replace (idx mod Z.of_nat (length l)) with (idx + Z.of_nat (length l)); [done|].
      apply Z.mod_unique with (-1); lia.
  - rewrite (bool_decide_eq_false_2 (idx < 0)) by done.
    rewrite (bool_decide_eq_false_2 (idx < 0)) by done.
    destruct (decide (idx < Z.of_nat (length l))) as [Hin|Hhigh].
    + rewrite bool_decide_eq_true_2 by lia. by rewrite Z.mod_small by lia.
    + rewrite bool_decide_eq_false_2 by lia.
      by rewrite lookup_ge_None_2 by lia.
Qed.
End dataset_facts.

Section further_lemmas.
Implicit Types (tk : tokenizer) (st : BpeTokenizer.train_state).

Lemma occurrences_app q (ps1 ps2 : list (Z * Z)) :
  occurrences q (ps1 ++ ps2) = occurrences q ps1 + occurrences q ps2.
Proof. unfold occurrences. rewrite filter_app, length_app. lia. Qed.

Lemma train_loop_stop n st st' :
  dense (vocab (BpeTokenizer.self st)) →
  BpeTokenizer.train_loop n st = (st', Return ()) →
  size (vocab (BpeTokenizer.self st')) = (size (vocab (BpeTokenizer.self st)) + n)%nat
  ∨ ∀ q, pair_freq q (BpeTokenizer.list_of_ids st') ≤ 1.
Proof.
  revert st. induction n as [|n IH]; intros st Hd; cbn [BpeTokenizer.train_loop].
  { intros [= <-]. left. lia. }
  destruct (BpeTokenizer.train_body st) as [st1 r] eqn:Hbody.
  destruct r as [[]|e|]; cbn [bind]; [| |done..].
  - apply train_body_continue in Hbody as (pair & t1 & t2 & _ & _ & _ & _ & -> & _).
    intros Hloop. apply IH in Hloop as [Hsize|Hfreq]; [left|by right|].
    + rewrite Hsize. cbn [BpeTokenizer.self record_merge vocab].
      rewrite map_size_insert_None by by apply dense_fresh. lia.
    + cbn [BpeTokenizer.self record_merge vocab]. by apply dense_insert.
  - intros [= <-]. apply train_body_break in Hbody as [-> Hfreq]. by right.
Qed.

Lemma encode_point_length c bs :
  encode_point c = Return bs → (1 ≤ length bs ≤ 4)%nat ∧ is_scalar c = true.
Proof.
  unfold encode_point. destruct (is_scalar c); cbn [negb]; [|done].
  repeat (destruct (bool_decide _)); intros [= <-]; simpl; split; (lia || done).
Qed.

Lemma utf8_encode_cases text :
  utf8_encode text = Raise UnicodeEncodeError ∧ ¬ valid_str text
  ∨ ∃ bs, utf8_encode text = Return bs ∧ valid_str text ∧ is_bytes bs
          ∧ (length text ≤ length bs ≤ 4 * length text)%nat.
Proof.
  induction text as [|c text IH].
  { right. exists []. split_and!; [done|constructor|constructor|simpl; lia..]. }
  cbn [utf8_encode]. destruct (encode_point c) as [b|e|] eqn:Hc.
  - pose proof (encode_point_bytes _ _ Hc) as Hb.
    apply encode_point_length in Hc as [Hlen Hsc]. cbn [bind].
    destruct IH as [[-> Hinv]|(bs & -> & Hv & Hbs & Hl)]; cbn [bind].
    + left. split; [done|]. by intros [_ ?]%Forall_cons.
    + right. exists (b ++ bs). split_and!; [done|by constructor|by apply Forall_app|..];
        rewrite length_app; simpl; lia.
  - left. unfold encode_point in Hc. destruct (is_scalar c) eqn:Hsc; cbn [negb] in Hc.
    + by repeat (destruct (bool_decide _)).
    + injection Hc as <-. split; [done|]. intros [Hc' _]%Forall_cons. congruence.
  - unfold encode_point in Hc. destruct (is_scalar c); cbn [negb] in Hc; [|done].
    by repeat (destruct (bool_decide _)).
Qed.
End further_lemmas.

(** ** Further properties *)

(** X1: [count_pairs] maps every pair that occurs to its pooled frequency
    and holds no other key; its keys are not repeated. *)
Theorem count_pairs_frequencies data q :
  dict_get q (count_pairs data)
    = (if bool_decide (0 < pair_freq q data) then Some (pair_freq q data) else None)
  ∧ NoDup (count_pairs data).*1.
Proof. split; [apply count_pairs_get|apply well_counted_count_pairs]. Qed.

(** X2: the counts of two groups of sequences add up: no pair is counted
    across the boundary between two sequences. *)
Theorem count_pairs_pooled data1 data2 q :
  counted q (count_pairs (data1 ++ data2))
  = counted q (count_pairs data1) + counted q (count_pairs data2).
Proof.
  rewrite !counted_count_pairs. unfold pair_freq. by rewrite bind_app, occurrences_app.
Qed.

(** X3: the pair that [max(cnt, key=cnt.get)] selects has the greatest
    pooled frequency, and among the pairs of that frequency it is the one
    that occurs first in the corpus: every pair met before its first
    occurrence is strictly less frequent. *)
Theorem selected_pair_is_first data pair :
  max_key (count_pairs data) = Return pair →
  (∀ q, pair_freq q data ≤ pair_freq pair data)
  ∧ ∃ before after,
      data ≫= adjacent = before ++ pair :: after
      ∧ (pair ∉ before)
      ∧ ∀ q, q ∈ before → pair_freq q data < pair_freq pair data.
Proof.
  intros Hmax. split; [by apply selected_training_pair|].
  destruct (max_key_first _ _ Hmax) as (pre & v & suf & Hcnt & Hpre & _).
  assert (Hv : v = pair_freq pair data).
  { apply (count_pairs_elem data pair v). rewrite Hcnt, elem_of_app. right.
    apply list_elem_of_here. }
  pose proof (count_pairs_keys data) as Hkeys.
  rewrite Hcnt, fmap_app, fmap_cons in Hkeys. cbn [fst] in Hkeys. symmetry in Hkeys.
  destruct (distinct_split _ _ _ _ Hkeys) as (before & after & Heq & Hnin & Hsub).
  exists before, after. split_and!; [done..|].
  intros q Hq. apply Hsub, list_elem_of_fmap in Hq as ([q' w] & -> & Hin).
  pose proof (Hpre _ Hin) as Hlt. cbn [fst snd] in *.
  assert (Hw : (q', w) ∈ count_pairs data).
  { rewrite Hcnt, elem_of_app. by left. }
  apply count_pairs_elem in Hw as [-> _]. lia.
Qed.

Lemma selected_pair_is_first_witness :
  max_key (count_pairs [[97; 98; 99]; [97; 98; 99]]) = Return (97, 98)
  ∧ (∀ q, pair_freq q [[97; 98; 99]; [97; 98; 99]]
          ≤ pair_freq (97, 98) [[97; 98; 99]; [97; 98; 99]])
  ∧ ∃ before after,
      [[97; 98; 99]; [97; 98; 99]] ≫= adjacent = before ++ (97, 98) :: after
      ∧ ((97, 98) ∉ before)
      ∧ ∀ q, q ∈ before → pair_freq q [[97; 98; 99]; [97; 98; 99]]
                           < pair_freq (97, 98) [[97; 98; 99]; [97; 98; 99]].
Proof.
  assert (H : max_key (count_pairs [[97; 98; 99]; [97; 98; 99]]) = Return (97, 98))
    by (vm_compute; reflexivity).
  split; [exact H|]. exact (selected_pair_is_first _ _ H).
Defined.

(** X4: on a non-empty list in which the pair does not occur, [merge]
    returns the list as it is. *)
Theorem merge_absent_pair numbers pair idx :
  numbers ≠ [] → pair ∉ adjacent numbers →
  merge numbers pair idx = (numbers, Return ()).
Proof.
  intros Hne Hnin. by rewrite merge_scan, replace_pairs_absent, scan_end_absent.
Qed.

Lemma merge_absent_pair_witness :
  [97; 98; 99] ≠ [] ∧ ((98, 97) ∉ adjacent [97; 98; 99])
  ∧ merge [97; 98; 99] (98, 97) 259 = ([97; 98; 99], Return ()).
Proof.
  assert (H1 : [97; 98; 99] ≠ @nil Z) by discriminate.
  assert (H2 : (98, 97) ∉ adjacent [97; 98; 99]).
  { apply (bool_decide_unpack _). vm_compute. exact I. }
  split; [exact H1|]. split; [exact H2|]. exact (merge_absent_pair _ _ 259 H1 H2).
Defined.

(** X5: the list that [merge] leaves is shorter by one id for every
    replaced occurrence, and every replaced occurrence is an occurrence of
    the pair in the list given. *)
Theorem merge_length numbers pair idx :
  (length (merge numbers pair idx).1 + length (replaced numbers pair)
   = length numbers)%nat
  ∧ ∀ p, p ∈ replaced numbers pair →
         numbers !! p = Some pair.1 ∧ numbers !! S p = Some pair.2.
Proof.
  rewrite merge_scan. split; [apply replaced_from_length|].
  intros p Hp. apply replaced_from_occurrence in Hp as (_ & H1 & H2).
  by rewrite Nat.sub_0_r in H1, H2.
Qed.

(** X6: when the token of [idx] is the concatenation of the tokens of the
    pair, the list that [merge] leaves joins to the same bytes as the list
    given, whether [merge] returns or raises. *)
Theorem merge_keeps_tokens (v : gmap Z (list Z)) numbers pair idx t1 t2 bs :
  v !! pair.1 = Some t1 → v !! pair.2 = Some t2 → v !! idx = Some (t1 ++ t2) →
  ByteTokenizer.join_vocab v numbers = Return bs →
  ByteTokenizer.join_vocab v (merge numbers pair idx).1 = Return bs.
Proof. intros. rewrite merge_scan. by eapply join_replace_pairs. Qed.

Lemma merge_keeps_tokens_witness :
  let v : gmap Z (list Z) := <[259 := [97; 98]]> base_vocab in
  v !! 97 = Some [97] ∧ v !! 98 = Some [98] ∧ v !! 259 = Some ([97] ++ [98])
  ∧ ByteTokenizer.join_vocab v [97; 98; 99; 97; 98] = Return [97; 98; 99; 97; 98]
  ∧ ByteTokenizer.join_vocab v (merge [97; 98; 99; 97; 98] (97, 98) 259).1
    = Return [97; 98; 99; 97; 98].
Proof.
  intros v.
  assert (H1 : v !! 97 = Some [97]) by (vm_compute; reflexivity).
  assert (H2 : v !! 98 = Some [98]) by (vm_compute; reflexivity).
  assert (H3 : v !! 259 = Some ([97] ++ [98])) by (vm_compute; reflexivity).
  assert (H4 : ByteTokenizer.join_vocab v [97; 98; 99; 97; 98]
               = Return [97; 98; 99; 97; 98]) by (vm_compute; reflexivity).
  split_and!; [exact H1|exact H2|exact H3|exact H4|].
  exact (merge_keeps_tokens v [97; 98; 99; 97; 98] (97, 98) 259 [97] [98] _ H1 H2 H3 H4).
Defined.

(** X7: after a call of [merge] that returns, with a new id that is not a
    component of the pair, the pair no longer occurs: a second call with
    the same arguments returns the list unchanged. *)
Theorem merge_twice numbers pair idx :
  idx ≠ pair.1 → idx ≠ pair.2 →
  (merge numbers pair idx).2 = Return () →
  (pair ∉ adjacent (merge numbers pair idx).1)
  ∧ merge (merge numbers pair idx).1 pair idx = ((merge numbers pair idx).1, Return ()).
Proof.
  intros H1 H2. rewrite merge_scan. cbn [fst snd]. intros Hend.
  pose proof (adjacent_replace_pairs_gone numbers pair idx H1 H2) as Hgone.
  split; [done|].
  rewrite merge_scan, replace_pairs_absent, scan_end_absent; [done| |done..].
  apply replace_pairs_nonempty. by intros ->.
Qed.

Lemma merge_twice_witness :
  259 ≠ (97, 97).1 ∧ 259 ≠ (97, 97).2
  ∧ (merge [97; 97; 97; 98] (97, 97) 259).2 = Return ()
  ∧ ((97, 97) ∉ adjacent (merge [97; 97; 97; 98] (97, 97) 259).1)
  ∧ merge (merge [97; 97; 97; 98] (97, 97) 259).1 (97, 97) 259
    = ((merge [97; 97; 97; 98] (97, 97) 259).1, Return ()).
Proof.
  assert (H1 : 259 ≠ (97, 97).1) by (simpl; lia).
  assert (H2 : 259 ≠ (97, 97).2) by (simpl; lia).
  assert (H3 : (merge [97; 97; 97; 98] (97, 97) 259).2 = Return ())
    by (vm_compute; reflexivity).
  split_and!; [exact H1|exact H2|exact H3|..];
    apply (merge_twice [97; 97; 97; 98] (97, 97) 259 H1 H2 H3).
Defined.

(** X8: [train] starts from a full reset: its result does not depend on
    the state the tokenizer was in, so training again on the same input
    gives the same tokenizer. *)
Theorem train_ignores_previous_state self self' texts max_vocab :
  BpeTokenizer.train self texts max_vocab = BpeTokenizer.train self' texts max_vocab
  ∧ BpeTokenizer.train (BpeTokenizer.train self texts max_vocab).1 texts max_vocab
    = BpeTokenizer.train self texts max_vocab.
Proof. by rewrite !train_unfold. Qed.

(** X9: on a corpus of valid strings [train] returns, or raises
    [ValueError] or [IndexError], never [KeyError]; it raises [ValueError]
    exactly when the target is above 259 and no text has two bytes. *)
Theorem train_outcomes self texts max_vocab list_of_ids :
  BpeTokenizer.encode_texts texts = Return list_of_ids →
  ((BpeTokenizer.train self texts max_vocab).2 = Return ()
   ∨ (BpeTokenizer.train self texts max_vocab).2 = Raise ValueError
   ∨ (BpeTokenizer.train self texts max_vocab).2 = Raise IndexError)
  ∧ ((BpeTokenizer.train self texts max_vocab).2 = Raise ValueError
     ↔ 259 < max_vocab ∧ Forall (λ ids, (length ids ≤ 1)%nat) list_of_ids).
Proof.
  intros Hids. split.
  - rewrite train_unfold, Hids. destruct (bool_decide _); [by left|]. cbn [snd].
    apply train_loop_inv; [apply base_tok_inv|].
    by eapply base_seq_inv, encode_texts_bytes.
  - split.
    + intros Hraise. rewrite train_unfold, Hids in Hraise.
      case_bool_decide as Hmax; [done|]. split; [lia|]. cbn [snd] in Hraise.
      destruct (decide (Forall (λ ids, (length ids ≤ 1)%nat) list_of_ids))
        as [|Hlong]; [done|].
      apply not_Forall_Exists in Hlong; [|apply _].
      exfalso. revert Hraise. apply train_loop_no_value_error.
      cbn [BpeTokenizer.list_of_ids]. eapply Exists_impl; [exact Hlong|].
      intros ids. simpl. lia.
    + intros [Hmax Hshort]. by rewrite (train_no_pairs self texts list_of_ids).
Qed.

Lemma train_outcomes_witness :
  BpeTokenizer.encode_texts [[97]; []] = Return [[97]; []]
  ∧ ((BpeTokenizer.train base_tokenizer [[97]; []] 300).2 = Return ()
     ∨ (BpeTokenizer.train base_tokenizer [[97]; []] 300).2 = Raise ValueError
     ∨ (BpeTokenizer.train base_tokenizer [[97]; []] 300).2 = Raise IndexError)
  ∧ ((BpeTokenizer.train base_tokenizer [[97]; []] 300).2 = Raise ValueError
     ↔ 259 < 300 ∧ Forall (λ ids, (length ids ≤ 1)%nat) [[97]; []]).
Proof.
  assert (H : BpeTokenizer.encode_texts [[97]; []] = Return [[97]; []])
    by (vm_compute; reflexivity).
  split; [exact H|]. exact (train_outcomes base_tokenizer [[97]; []] 300 _ H).
Defined.

(** X10: after any run of [train] the ids in the merge table are exactly
    the numbers from 259 up to the size of the vocabulary, and no id is
    given to two pairs. *)
Theorem train_merge_ids self texts max_vocab :
  merge_ids_dense (BpeTokenizer.train self texts max_vocab).1.
Proof. apply train_keeps; [apply merge_ids_dense_step|apply merge_ids_dense_base]. Qed.

(** X11: after any run of [train] the 256 byte entries and the three
    special tokens are where the reset put them, and the special ids are
    256, 257 and 258. *)
Theorem train_keeps_base self texts max_vocab :
  let trained := (BpeTokenizer.train self texts max_vocab).1 in
  (∀ idx, 0 ≤ idx < 256 → vocab trained !! idx = Some [idx])
  ∧ vocab trained !! 256 = Some pad_token
  ∧ vocab trained !! 257 = Some bos_token
  ∧ vocab trained !! 258 = Some eos_token
  ∧ pad_token_id trained = Some 256
  ∧ bos_token_id trained = Some 257
  ∧ eos_token_id trained = Some 258.
Proof.
  intros trained.
  assert (Hk : base_kept trained)
    by (apply train_keeps; [apply base_kept_step|apply base_kept_base]).
  destruct Hk as (Hsub & ? & ? & ?). split_and!; [|..|done|done|done].
  - intros idx Hidx. eapply lookup_weaken; [by apply base_vocab_bytes|done].
  - eapply lookup_weaken; [|done]. vm_compute. reflexivity.
  - eapply lookup_weaken; [|done]. vm_compute. reflexivity.
  - eapply lookup_weaken; [|done]. vm_compute. reflexivity.
Qed.

(** X12: when the training loop ends normally, either every iteration of
    the range recorded a merge, or no adjacent pair occurs twice in the
    working sequences. *)
Theorem train_stop_rule list_of_ids n st' :
  BpeTokenizer.train_loop n (BpeTokenizer.TrainState base_tokenizer list_of_ids)
    = (st', Return ()) →
  size (vocab (BpeTokenizer.self st')) = (259 + n)%nat
  ∨ ∀ q, pair_freq q (BpeTokenizer.list_of_ids st') ≤ 1.
Proof.
  intros Hloop. apply train_loop_stop in Hloop as [Hsize|?]; [left|by right|].
  - rewrite Hsize. cbn [BpeTokenizer.self vocab base_tokenizer]. by rewrite base_vocab_size.
  - apply base_tok_inv.
Qed.

Lemma train_stop_rule_witness :
  BpeTokenizer.train_loop 5 (BpeTokenizer.TrainState base_tokenizer [[97; 98; 99]])
    = (BpeTokenizer.TrainState base_tokenizer [[97; 98; 99]], Return ())
  ∧ (size (vocab base_tokenizer) = (259 + 5)%nat
     ∨ ∀ q, pair_freq q [[97; 98; 99]] ≤ 1).
Proof.
  assert (H2 : BpeTokenizer.train_loop 5
                 (BpeTokenizer.TrainState base_tokenizer [[97; 98; 99]])
               = (BpeTokenizer.TrainState base_tokenizer [[97; 98; 99]], Return ()))
    by (vm_compute; reflexivity).
  split; [exact H2|].
  exact (train_stop_rule [[97; 98; 99]] 5 _ H2).
Defined.

(** X13: with a tokenizer left by any run of [train], whenever [encode]
    returns on a valid string, [decode] of the ids gives the string back. *)
Theorem trained_round_trip self texts max_vocab text ids :
  valid_str text →
  BpeTokenizer.encode (BpeTokenizer.train self texts max_vocab).1 text = Return ids →
  BpeTokenizer.decode (BpeTokenizer.train self texts max_vocab).1 ids = Return text.
Proof.
  intros (bs & Hbs & Hbytes & Hdec)%decode_encode.
  set (trained := (BpeTokenizer.train self texts max_vocab).1).
  assert (Hsound : merge_sound trained) by apply train_tok_inv.
  assert (Hk : base_kept trained)
    by (apply train_keeps; [apply base_kept_step|apply base_kept_base]).
  destruct Hk as (Hsub & _).
  unfold BpeTokenizer.encode. rewrite Hbs. cbn [bind]. intros Hloop.
  apply (encode_loop_keeps
           (λ l, ByteTokenizer.join_vocab (vocab trained) l = Return bs)) in Hloop
    as (Hjoin & _).
  - unfold BpeTokenizer.decode, ByteTokenizer.decode. rewrite Hjoin. cbn [bind].
    by rewrite Hdec.
  - intros l [p1 p2] idx Hl _ Hm.
    destruct (Hsound _ _ _ Hm) as (_ & _ & t1 & t2 & H1 & H2 & Hidx).
    by eapply join_replace_pairs.
  - by apply join_vocab_bytes.
Qed.

Lemma trained_round_trip_witness :
  let trained :=
    (BpeTokenizer.train base_tokenizer [[97; 97; 97; 98]; [97; 97; 97; 98]] 260).1 in
  valid_str [97; 97; 97; 98]
  ∧ BpeTokenizer.encode trained [97; 97; 97; 98] = Return [259; 97; 98]
  ∧ BpeTokenizer.decode trained [259; 97; 98] = Return [97; 97; 97; 98].
Proof.
  intros trained.
  assert (H1 : valid_str [97; 97; 97; 98]) by (repeat constructor).
  assert (H2 : BpeTokenizer.encode trained [97; 97; 97; 98] = Return [259; 97; 98])
    by (vm_compute; reflexivity).
  split; [exact H1|]. split; [exact H2|].
  exact (trained_round_trip base_tokenizer _ 260 _ _ H1 H2).
Defined.

(** X14: on a valid string and with any merge table, [encode] either
    raises [IndexError] or returns; the ids it returns are no more than
    the UTF-8 bytes of the string, and they are where the loop stops: at
    most one id, or a most frequent pair that is not in the merge table. *)
Theorem encode_outcomes self text :
  valid_str text →
  BpeTokenizer.encode self text = Raise IndexError
  ∨ ∃ bs ids,
      ByteTokenizer.encode self text = Return bs
      ∧ BpeTokenizer.encode self text = Return ids
      ∧ (length ids ≤ length bs)%nat
      ∧ ((length ids ≤ 1)%nat
         ∨ ∃ pair, max_key (count_pairs [ids]) = Return pair
                   ∧ merges self !! pair = None).
Proof.
  intros (bs & Hbs & _ & _)%decode_encode.
  unfold BpeTokenizer.encode, ByteTokenizer.encode. rewrite Hbs. cbn [bind].
  destruct (encode_loop_outcome self (length bs) bs) as [[ids Hids]|Hraise];
    [lia| |by left].
  right. exists bs, ids. split; [done|]. split; [done|].
  by apply (encode_loop_keeps (λ _, True)) in Hids as (_ & ? & ?).
Qed.

Lemma encode_outcomes_witness :
  let trained :=
    Tokenizer (<[259 := [97; 98]]> base_vocab) {[ (97, 98) := 259 ]}
              (Some 256) (Some 257) (Some 258) in
  valid_str [97; 98; 99]
  ∧ (BpeTokenizer.encode trained [97; 98; 99] = Raise IndexError
     ∨ ∃ bs ids,
         ByteTokenizer.encode trained [97; 98; 99] = Return bs
         ∧ BpeTokenizer.encode trained [97; 98; 99] = Return ids
         ∧ (length ids ≤ length bs)%nat
         ∧ ((length ids ≤ 1)%nat
            ∨ ∃ pair, max_key (count_pairs [ids]) = Return pair
                      ∧ merges trained !! pair = None)).
Proof.
  intros trained.
  assert (H : valid_str [97; 98; 99]) by (repeat constructor).
  split; [exact H|]. exact (encode_outcomes trained _ H).
Defined.

(** X15: with a tokenizer left by any run of [train], every id that
    [encode] returns is a byte or a merged id of the vocabulary, never one
    of the special ids 256, 257, 258. *)
Theorem encode_ids_trained self texts max_vocab text ids :
  let trained := (BpeTokenizer.train self texts max_vocab).1 in
  BpeTokenizer.encode trained text = Return ids →
  Forall (λ idx, 0 ≤ idx < 256 ∨ 259 ≤ idx < Z.of_nat (size (vocab trained))) ids.
Proof.
  intros trained. unfold BpeTokenizer.encode.
  destruct (utf8_encode text) as [bs| |] eqn:Hbs; [|done..]. cbn [bind]. intros Hloop.
  pose proof (train_merge_ids self texts max_vocab) as [Hran _]. fold trained in Hran.
  apply (encode_loop_keeps
    (Forall (λ idx, 0 ≤ idx < 256 ∨ 259 ≤ idx < Z.of_nat (size (vocab trained)))))
    in Hloop as (Hall & _); [done| |].
  - intros l pair idx Hl _ Hm. rewrite Forall_forall in Hl |- *.
    intros x [->|Hx]%replace_pairs_elem; [|by apply Hl].
    right. apply Hran. eauto.
  - apply utf8_encode_bytes in Hbs. eapply Forall_impl; [exact Hbs|].
    intros b Hb. by left.
Qed.

Lemma encode_ids_trained_witness :
  let trained :=
    (BpeTokenizer.train base_tokenizer [[97; 97; 97; 98]; [97; 97; 97; 98]] 260).1 in
  BpeTokenizer.encode trained [97; 97; 97; 98] = Return [259; 97; 98]
  ∧ Forall (λ idx, 0 ≤ idx < 256 ∨ 259 ≤ idx < Z.of_nat (size (vocab trained)))
           [259; 97; 98].
Proof.
  intros trained.
  assert (H : BpeTokenizer.encode trained [97; 97; 97; 98] = Return [259; 97; 98])
    by (vm_compute; reflexivity).
  split; [exact H|].
  exact (encode_ids_trained base_tokenizer _ 260 _ _ H).
Defined.

(** X16: [decode] raises [KeyError] exactly when some id is not in the
    vocabulary; otherwise it returns the tokens of the ids, joined in order
    and decoded with replacement. *)
Theorem decode_outcomes self ids :
  ByteTokenizer.decode self ids =
  if bool_decide (Forall (λ idx, is_Some (vocab self !! idx)) ids)
  then Return (utf8_decode (ids ≫= λ idx, default [] (vocab self !! idx)))
  else Raise KeyError.
Proof.
  unfold ByteTokenizer.decode. rewrite join_vocab_spec. by destruct (bool_decide _).
Qed.

(** X17: [ByteTokenizer.encode] raises [UnicodeEncodeError] exactly on a
    string that is not valid; otherwise it returns byte values, at least
    one and at most four for each code point. *)
Theorem byte_encode_outcomes self text :
  (ByteTokenizer.encode self text = Raise UnicodeEncodeError ↔ ¬ valid_str text)
  ∧ ∀ bs, ByteTokenizer.encode self text = Return bs →
          is_bytes bs ∧ (length text ≤ length bs ≤ 4 * length text)%nat.
Proof.
  unfold ByteTokenizer.encode.
  destruct (utf8_encode_cases text) as [[-> Hinv]|(bs & -> & Hv & Hb & Hl)].
  - split; [done|]. intros bs [=].
  - split; [split; [done|by intros []]|]. by intros ? [= <-].
Qed.

(** X18: a dataset that [MyDataset(texts, tokenizer, max_length)] builds
    has one row for each text, in order; the row of a text is the [bytes]
    object [b'<bos>'], the ids that [encode] returns for the text, and the
    [bytes] object [b'<eos>'] (the tokens themselves, not their ids). *)
Theorem dataset_rows cls tokenizer texts max_length ds :
  MyDataset.new cls tokenizer texts max_length = Return ds →
  MyDataset.len ds = Z.of_nat (length texts)
  ∧ MyDataset.max_length ds = max_length
  ∧ Forall2 (λ text row, ∃ ids, encode_method cls tokenizer text = Return ids
                                 ∧ row = row_of ids)
            texts (MyDataset.data ds).
Proof.
  unfold MyDataset.new.
  destruct (MyDataset.fill cls tokenizer texts []) as [data| |] eqn:Hfill; [|done..].
  cbn [bind]. intros [= <-]. apply fill_return in Hfill as (rows & -> & Hrows).
  cbn [app]. unfold MyDataset.len. cbn [MyDataset.data MyDataset.max_length].
  split_and!; [|done..]. by rewrite (Forall2_length _ _ _ Hrows).
Qed.

Lemma dataset_rows_witness :
  let ds := MyDataset.Dataset (Some 3)
              [row_of [97; 98]; row_of [195; 169]] in
  MyDataset.new ByteClass base_tokenizer [[97; 98]; [233]] (Some 3) = Return ds
  ∧ MyDataset.len ds = Z.of_nat (length [[97; 98]; [233]])
  ∧ MyDataset.max_length ds = Some 3
  ∧ Forall2 (λ text row, ∃ ids, encode_method ByteClass base_tokenizer text = Return ids
                                 ∧ row = row_of ids)
            [[97; 98]; [233]] (MyDataset.data ds).
Proof.
  intros ds.
  assert (H : MyDataset.new ByteClass base_tokenizer [[97; 98]; [233]] (Some 3) = Return ds)
    by (vm_compute; reflexivity).
  split; [exact H|]. exact (dataset_rows _ _ _ _ _ H).
Defined.

(** X19: building a dataset fails only with an exception that [encode]
    raises on one of the texts; with a [ByteTokenizer] and valid strings
    it always succeeds. *)
Theorem dataset_construction cls tokenizer texts max_length :
  (∀ e, MyDataset.new cls tokenizer texts max_length = Raise e →
        ∃ text, text ∈ texts ∧ encode_method cls tokenizer text = Raise e)
  ∧ (Forall valid_str texts →
     ∃ ds, MyDataset.new ByteClass tokenizer texts max_length = Return ds).
Proof.
  split.
  - intros e. unfold MyDataset.new.
    destruct (MyDataset.fill cls tokenizer texts []) as [data| |] eqn:Hfill; [done| |done].
    cbn [bind]. intros [= <-]. by eapply fill_raise.
  - intros Hvalid. unfold MyDataset.new.
    assert (Hfill : ∀ data, ∃ data',
              MyDataset.fill ByteClass tokenizer texts data = Return data').
    { induction Hvalid as [|text rest Hv _ IH]; intros data; cbn [MyDataset.fill]; [eauto|].
      apply decode_encode in Hv as (bs & Hbs & _).
      cbn [encode_method]. unfold ByteTokenizer.encode. rewrite Hbs. cbn [bind]. apply IH. }
    destruct (Hfill []) as [data ->]. cbn [bind]. eauto.
Qed.

(** X20: [dataset[idx]] raises [IndexError] exactly when [idx] is outside
    [-len(dataset) .. len(dataset)-1]; otherwise it returns a prefix of
    the row at that index (counted from the end when negative): the whole
    row without [max_length], and at most [max_length] elements with a
    non-negative [max_length]. *)
Theorem dataset_getitem ds idx :
  (MyDataset.getitem ds idx = Raise IndexError
   ↔ ¬ (- MyDataset.len ds ≤ idx < MyDataset.len ds))
  ∧ (- MyDataset.len ds ≤ idx < MyDataset.len ds →
     ∃ row,
       MyDataset.data ds !! Z.to_nat (idx mod MyDataset.len ds) = Some row
       ∧ MyDataset.getitem ds idx = Return (slice_to row (MyDataset.max_length ds))
       ∧ slice_to row (MyDataset.max_length ds) `prefix_of` row
       ∧ (MyDataset.max_length ds = None → slice_to row (MyDataset.max_length ds) = row)
       ∧ (∀ n, MyDataset.max_length ds = Some n → 0 ≤ n →
               Z.of_nat (length (slice_to row (MyDataset.max_length ds)))
               = Z.min n (Z.of_nat (length row)))).
Proof.
  unfold MyDataset.getitem, MyDataset.len. rewrite list_item_spec.
  destruct (decide (- Z.of_nat (length (MyDataset.data ds)) ≤ idx
                    < Z.of_nat (length (MyDataset.data ds)))) as [Hin|Hout].
  - rewrite bool_decide_eq_true_2 by done.
    destruct (lookup_lt_is_Some_2 (MyDataset.data ds)
                (Z.to_nat (idx mod Z.of_nat (length (MyDataset.data ds))))) as [row Hrow].
    { pose proof (Z.mod_pos_bound idx (Z.of_nat (length (MyDataset.data ds)))). lia. }
    rewrite Hrow. cbn [bind]. split; [split; [done|by intros []]|].
    intros _. exists row. split_and!; [done|done| | |].
    + unfold slice_to. destruct (MyDataset.max_length ds) as [n|]; [|done].
      destruct (bool_decide _); apply prefix_take.
    + by intros ->.
    + intros n -> Hn. unfold slice_to. rewrite bool_decide_eq_false_2 by lia.
      rewrite length_take. lia.
  - rewrite bool_decide_eq_false_2 by done. cbn [bind]. split; [done|]. by intros ?.
Qed.

(** X21: [count_pairs] returns an empty dictionary exactly when no
    sequence has two ids. *)
Theorem count_pairs_empty data :
  count_pairs data = [] ↔ Forall (λ ids, (length ids ≤ 1)%nat) data.
Proof.
  rewrite count_pairs_nil_iff. induction data as [|ids data IH].
  - split; [constructor|done].
  - rewrite bind_cons, Forall_cons, <-IH, <-adjacent_nil_iff. split.
    + by intros [? ?]%app_eq_nil.
    + by intros [-> ->].
Qed.

(** X22: [merge] brings in no id other than [idx], and no adjacent pair
    other than pairs that hold [idx]: every id of the list it leaves is
    [idx] or an id of the list given, and every adjacent pair without [idx]
    was adjacent in the list given. *)
Theorem merge_elements numbers pair idx :
  (∀ x, x ∈ (merge numbers pair idx).1 → x = idx ∨ x ∈ numbers)
  ∧ (∀ q, q ∈ adjacent (merge numbers pair idx).1 →
          q ∈ adjacent numbers ∨ q.1 = idx ∨ q.2 = idx).
Proof.
  rewrite merge_scan. split; [intros x; apply replace_pairs_elem|].
  intros q. apply adjacent_replace_pairs.
Qed.

(** X23: [train] raises [IndexError] in its first iteration whenever the
    pair it selects there occurs more than once and its rightmost replaced
    occurrence ends one of the texts. *)
Theorem train_raises_on_final_pair self texts max_vocab list_of_ids pair ids :
  259 < max_vocab →
  BpeTokenizer.encode_texts texts = Return list_of_ids →
  max_key (count_pairs list_of_ids) = Return pair →
  pair_freq pair list_of_ids ≠ 1 →
  ids ∈ list_of_ids → ends_replaced ids pair = true →
  (BpeTokenizer.train self texts max_vocab).2 = Raise IndexError.
Proof.
  intros Hmax Hids Hsel Hfreq Hin Hend.
  rewrite train_unfold, bool_decide_eq_false_2, Hids by lia. cbn [snd].
  destruct (Z.to_nat (max_vocab - 259)) as [|n] eqn:Hn; [lia|].
  cbn [BpeTokenizer.train_loop]. unfold BpeTokenizer.train_body.
  cbn [BpeTokenizer.self BpeTokenizer.list_of_ids]. rewrite Hsel. cbn zeta.
  destruct (selected_training_pair _ _ Hsel) as (Hget & _ & _ & ids0 & Hin0 & Hadj).
  rewrite Hget, bool_decide_eq_false_2 by done.
  pose proof (encode_texts_bytes _ _ Hids) as Hbytes.
  destruct pair as [p1 p2]. apply adjacent_elems in Hadj as [Hp1 Hp2].
  rewrite Forall_forall in Hbytes. pose proof (Hbytes _ Hin0) as Hb0.
  unfold is_bytes in Hb0. rewrite Forall_forall in Hb0.
  unfold subscript. cbn [fst snd vocab base_tokenizer].
  rewrite !base_vocab_bytes by auto.
  pose proof (merge_each_outcome list_of_ids (p1, p2) (Z.of_nat (size base_vocab))) as Hout.
  pose proof (merge_each_return list_of_ids (p1, p2) (Z.of_nat (size base_vocab))) as Hret.
  destruct (BpeTokenizer.merge_each _ _ _) as [ids' r]. cbn [fst snd] in *.
  destruct Hout as [-> | ->]; [|done].
  destruct (Hret eq_refl) as [_ Hall]. rewrite Forall_forall in Hall.
  apply Hall in Hin. rewrite scan_end_ends_replaced, Hend, orb_true_r in Hin. done.
Qed.

Lemma train_raises_on_final_pair_witness :
  259 < 300
  ∧ BpeTokenizer.encode_texts [[97; 98]; [97; 98]] = Return [[97; 98]; [97; 98]]
  ∧ max_key (count_pairs [[97; 98]; [97; 98]]) = Return (97, 98)
  ∧ pair_freq (97, 98) [[97; 98]; [97; 98]] ≠ 1
  ∧ [97; 98] ∈ [[97; 98]; [97; 98]]
  ∧ ends_replaced [97; 98] (97, 98) = true
  ∧ (BpeTokenizer.train base_tokenizer [[97; 98]; [97; 98]] 300).2 = Raise IndexError.
Proof.
  assert (H1 : 259 < 300) by lia.
  assert (H2 : BpeTokenizer.encode_texts [[97; 98]; [97; 98]]
               = Return [[97; 98]; [97; 98]]) by (vm_compute; reflexivity).
  assert (H3 : max_key (count_pairs [[97; 98]; [97; 98]]) = Return (97, 98))
    by (vm_compute; reflexivity).
  assert (H4 : pair_freq (97, 98) [[97; 98]; [97; 98]] ≠ 1) by (vm_compute; discriminate).
  assert (H5 : [97; 98] ∈ [[97; 98]; [97; 98]]) by apply list_elem_of_here.
  assert (H6 : ends_replaced [97; 98] (97, 98) = true) by (vm_compute; reflexivity).
  split_and!; [exact H1|exact H2|exact H3|exact H4|exact H5|exact H6|].
  exact (train_raises_on_final_pair base_tokenizer _ 300 _ _ _ H1 H2 H3 H4 H5 H6).
Defined.

(** X24: [encode] raises [IndexError] whenever the pair it selects first
    is in the merge table and its rightmost replaced occurrence ends the
    bytes of the string. *)
Theorem encode_raises_on_final_pair self text bs pair idx :
  ByteTokenizer.encode self text = Return bs →
  max_key (count_pairs [bs]) = Return pair →
  merges self !! pair = Some idx →
  ends_replaced bs pair = true →
  BpeTokenizer.encode self text = Raise IndexError.
Proof.
  unfold ByteTokenizer.encode, BpeTokenizer.encode. intros -> Hsel Hm Hend. cbn [bind].
  assert (Hlen : (1 < length bs)%nat).
  { destruct bs as [|a [|b t]]; [done..|simpl; lia]. }
  assert (Hbody : BpeTokenizer.encode_body self bs = Raise IndexError).
  { rewrite (encode_body_long self bs pair), Hm by done.
    by rewrite scan_end_ends_replaced, Hend, orb_true_r. }
  destruct (length bs); cbn [BpeTokenizer.encode_loop]; by rewrite Hbody.
Qed.

Lemma encode_raises_on_final_pair_witness :
  let trained :=
    Tokenizer (<[259 := [97; 98]]> base_vocab) {[ (97, 98) := 259 ]}
              (Some 256) (Some 257) (Some 258) in
  ByteTokenizer.encode trained [99; 97; 98; 97; 98] = Return [99; 97; 98; 97; 98]
  ∧ max_key (count_pairs [[99; 97; 98; 97; 98]]) = Return (97, 98)
  ∧ merges trained !! (97, 98) = Some 259
  ∧ ends_replaced [99; 97; 98; 97; 98] (97, 98) = true
  ∧ BpeTokenizer.encode trained [99; 97; 98; 97; 98] = Raise IndexError.
Proof.
  intros trained.
  assert (H1 : ByteTokenizer.encode trained [99; 97; 98; 97; 98]
               = Return [99; 97; 98; 97; 98]) by (vm_compute; reflexivity).
  assert (H2 : max_key (count_pairs [[99; 97; 98; 97; 98]]) = Return (97, 98))
    by (vm_compute; reflexivity).
  assert (H3 : merges trained !! (97, 98) = Some 259) by (vm_compute; reflexivity).
  assert (H4 : ends_replaced [99; 97; 98; 97; 98] (97, 98) = true)
    by (vm_compute; reflexivity).
  split_and!; [exact H1|exact H2|exact H3|exact H4|].
  exact (encode_raises_on_final_pair trained _ _ _ _ H1 H2 H3 H4).
Defined.
